(** * system-backup: the backup engine and its scheduler

    A shallow embedding of [Client/Client.py]: path filtering, the scanning
    and archiving walks, atomic publication of the archive, restore by
    extraction, archive naming, configuration loading and the auto-backup
    scheduler.  Python's library calls ([os.path], [os.walk], [tarfile],
    [time.strptime], [threading]) are embedded by what they do on POSIX. *)

From Stdlib Require Import ZArith Lia List Ascii String Bool.
From stdpp Require Import gmap strings list fin_maps.
Import ListNotations.
Open Scope string_scope.
Open Scope list_scope.
Set Warnings "-register-all".


(** ** Strings and POSIX paths ([str], [posixpath]) *)

Definition sep : ascii := "/"%char.

(** [s.startswith(p)] *)
Definition startswith (s p : string) : bool := String.prefix p s.

(** [s.endswith("/")] *)
Fixpoint ends_with_sep (s : string) : bool :=
  match s with
  | EmptyString => false
  | String c EmptyString => Ascii.eqb c sep
  | String _ r => ends_with_sep r
  end.

(** [s.split("/")]: always at least one component. *)
Fixpoint split (s : string) : list string :=
  match s with
  | EmptyString => [EmptyString]
  | String c r =>
      let l := split r in
      if Ascii.eqb c sep then EmptyString :: l
      else match l with
           | h :: t => String c h :: t
           | [] => [String c EmptyString]
           end
  end.

(** ["/".join(comps)] *)
Definition join_sep (comps : list string) : string := String.concat "/" comps.

(** One round of the loop of [posixpath.normpath]; the component stack is
    kept with its top first. *)
Definition norm_step (initial_slashes : nat) (rev_comps : list string)
    (comp : string) : list string :=
  if String.eqb comp "" || String.eqb comp "." then rev_comps
  else if negb (String.eqb comp "..")
          || (Nat.eqb initial_slashes 0 && match rev_comps with [] => true | _ => false end)
          || match rev_comps with top :: _ => String.eqb top ".." | [] => false end
       then comp :: rev_comps
       else match rev_comps with
            | _ :: rest => rest
            | [] => []
            end.

Fixpoint repeat_sep (n : nat) : string :=
  match n with
  | O => ""
  | S k => String sep (repeat_sep k)
  end.

(** POSIX keeps two leading slashes and takes three or more for one. *)
Definition initial_slashes (path : string) : nat :=
  if startswith path "/" then
    if startswith path "//" && negb (startswith path "///") then 2%nat else 1%nat
  else 0%nat.

(** [os.path.normpath] *)
Definition normpath (path : string) : string :=
  if String.eqb path "" then "."
  else
    let comps := rev (fold_left (norm_step (initial_slashes path)) (split path) []) in
    let p := repeat_sep (initial_slashes path) +:+ join_sep comps in
    if String.eqb p "" then "." else p.

(** [os.path.join(a, b)] *)
Definition join (a b : string) : string :=
  if startswith b "/" then b
  else if String.eqb a "" || ends_with_sep a then a +:+ b
  else a +:+ "/" +:+ b.

(** [os.path.basename]: what follows the last separator. *)
Fixpoint basename (p : string) : string :=
  match p with
  | EmptyString => EmptyString
  | String c r =>
      if existsb (Ascii.eqb sep) (list_ascii_of_string r) then basename r
      else if Ascii.eqb c sep then r else p
  end.

(** [os.path.abspath] with the working directory made explicit. *)
Definition abspath (cwd path : string) : string := normpath (join cwd path).

Fixpoint drop_common (a b : list string) : list string * list string :=
  match a, b with
  | x :: a', y :: b' => if String.eqb x y then drop_common a' b' else (a, b)
  | _, _ => (a, b)
  end.

Definition nonempty_comps (p : string) : list string :=
  List.filter (fun x => negb (String.eqb x "")) (split p).

(** [os.path.relpath(path, start)] *)
Definition relpath (cwd path start : string) : string :=
  let start_list := nonempty_comps (abspath cwd start) in
  let path_list := nonempty_comps (abspath cwd path) in
  let '(up, down) := drop_common start_list path_list in
  let rel_list := List.map (fun _ => "..") up ++ down in
  match rel_list with
  | [] => "."
  | _ => join_sep rel_list
  end.

(** ** Constants of the client *)

(** [BACKUP_DIR = os.path.join(os.path.expanduser("~"), "BackupSystemBackups")];
    the home directory is the process's, hence a parameter. *)
Definition BACKUP_DIR (home : string) : string := join home "BackupSystemBackups".

Definition CONFIG_FILE (home : string) : string := join (BACKUP_DIR home) "backup_config.json".

Definition EXCLUDE_DIRS (home : string) : list string :=
  ["/tmp"; "/proc"; "/run"; "/sys"; "/dev"; "/mnt"; "/media"; BACKUP_DIR home;
   "/var/log"; "/var/tmp"].

Definition FILE_SIZE_LIMIT : Z := 500 * 1024 * 1024.

(** ** PathFilter: the exclusion test *)

(** [{os.path.normpath(d) for d in exclude_dirs}]; the set is only tested for
    membership and scanned by [any], so a list carries it. *)
Definition excluded_normalized_paths (exclude_dirs : list string) : list string :=
  List.map normpath exclude_dirs.

(** The test written inline in both walks (lines 113-114, 155-156, 162, 181):
    [n in excluded or any(n.startswith(e) for e in excluded)], on a path that
    the caller has already normalized. *)
Definition excluded_norm (excluded : list string) (n : string) : bool :=
  existsb (String.eqb n) excluded || existsb (startswith n) excluded.

Definition is_excluded (exclude_dirs : list string) (p : string) : bool :=
  excluded_norm (excluded_normalized_paths exclude_dirs) (normpath p).

(** The file test of the scanning pass (line 122) has only the [any] half. *)
Definition scan_file_excluded (exclude_dirs : list string) (p : string) : bool :=
  existsb (startswith (normpath p)) (excluded_normalized_paths exclude_dirs).

(** What the specification asks of the test, in its own words: the
    normalized path equals an entry or descends from it, compared segment by
    segment. *)
Fixpoint segments_prefix (e p : list string) : bool :=
  match e, p with
  | [], _ => true
  | x :: e', y :: p' => String.eqb x y && segments_prefix e' p'
  | _ :: _, [] => false
  end.

Definition segment_excluded (exclude_dirs : list string) (p : string) : bool :=
  existsb (fun e => segments_prefix (nonempty_comps (normpath e)) (nonempty_comps (normpath p)))
          exclude_dirs.

(** ** The source tree

    A backup reads a tree of directories and regular files.  [readable] is
    what [os.access(_, os.R_OK)] answers (a directory that is not readable
    cannot be listed, a file that is not cannot be opened); [size] is what
    [os.path.getsize] returns, [None] when it raises [OSError]; [data] are
    the bytes [tarfile] reads.  Symbolic links and special files are left
    out: the walks do not follow links. *)

Inductive node :=
| File (name : string) (readable : bool) (size : option Z) (data : string)
| Dir (name : string) (readable : bool) (kids : list node).

Definition node_name (n : node) : string :=
  match n with File nm _ _ _ | Dir nm _ _ => nm end.

Definition node_readable (n : node) : bool :=
  match n with File _ r _ _ | Dir _ r _ => r end.

Definition is_dir (n : node) : bool :=
  match n with Dir _ _ _ => true | File _ _ _ _ => false end.

Definition is_file (n : node) : bool := negb (is_dir n).

(** Entries of a tar stream, and what a path of the archive store holds:
    a stream still being written, or a closed archive. *)
Inductive entry :=
| EDir (arcname : string)
| EFile (arcname : string) (data : string).

Inductive fcontent :=
| Stream (es : list entry)
| Archive (es : list entry).

(** The world an operation runs in: the working directory, the source side
    (which tree a path names, if any) and the archive store. *)
Record world := {
  cwd : string;
  resolve : string -> option node;
  store : gmap string fcontent
}.

(** ** TreeScanner: [scan_directory] *)

Definition totals : Type := Z * Z * Z.

Definition add_totals (a b : totals) : totals :=
  let '(d1, f1, s1) := a in
  let '(d2, f2, s2) := b in
  (d1 + d2, f1 + f2, s1 + s2)%Z.

(** A file of the scanning loop (lines 118-131). *)
Definition scan_file (exclude_dirs : list string) (root : string) (f : node) : totals :=
  let file_path := join root (node_name f) in
  if scan_file_excluded exclude_dirs file_path then (0, 0, 0)%Z
  else match f with
       | File _ _ (Some sz) _ => (0, 1, sz)%Z
       | _ => (0, 0, 0)%Z
       end.

(** What [os.walk(root)] visits from directory [n] on, with the pruning of
    [dirs[:]] (lines 113-114): one round for [n], then the surviving
    subdirectories in turn.  A path that is no listable directory yields
    nothing. *)
Fixpoint scan_walk (exclude_dirs : list string) (root : string) (n : node) : totals :=
  match n with
  | Dir _ true kids =>
      let keep k := is_dir k && negb (is_excluded exclude_dirs (join root (node_name k))) in
      let here : totals :=
        fold_left add_totals
          (List.map (scan_file exclude_dirs root) (List.filter is_file kids))
          (Z.of_nat (length (List.filter keep kids)), 0, 0)%Z in
      fold_left add_totals
        (List.map (fun k => if keep k
                            then scan_walk exclude_dirs (join root (node_name k)) k
                            else (0, 0, 0)%Z) kids)
        here
  | _ => (0, 0, 0)%Z
  end.

(** [scan_directory(path)]: the exclusion list is the module's [EXCLUDE_DIRS],
    whatever the caller of the build passed. *)
Definition scan_directory (home : string) (w : world) (path : string) : totals :=
  match resolve w path with
  | Some n => scan_walk (EXCLUDE_DIRS home) path n
  | None => (0, 0, 0)%Z
  end.

(** ** [tarfile.TarFile.add]

    [add(name, arcname, recursive=True)]: a regular file is opened and
    written; a directory gets its entry and then, since [recursive] defaults
    to [True], every [sorted(os.listdir(name))] child is added in turn.  An
    exception (a file that cannot be opened, a directory that cannot be
    listed) ends the call; what was written before it stays in the stream.
    The result is the entries written and whether the call returned. *)

Fixpoint insert_sorted (x : string * (list entry * bool))
    (l : list (string * (list entry * bool))) : list (string * (list entry * bool)) :=
  match l with
  | [] => [x]
  | y :: t => if String.leb (fst x) (fst y) then x :: l else y :: insert_sorted x t
  end.

Definition sort_by_name (l : list (string * (list entry * bool))) :
    list (string * (list entry * bool)) :=
  fold_right insert_sorted [] l.

Fixpoint add_in_turn (l : list (string * (list entry * bool))) : list entry * bool :=
  match l with
  | [] => ([], true)
  | (_, (es, ok)) :: t =>
      if ok then let '(es', ok') := add_in_turn t in (es ++ es', ok')
      else (es, false)
  end.

Fixpoint tar_add (name arcname : string) (n : node) : list entry * bool :=
  match n with
  | File _ r _ data => if r then ([EFile arcname data], true) else ([], false)
  | Dir _ r kids =>
      if r then
        let subs :=
          List.map (fun k => (node_name k,
                              tar_add (join name (node_name k)) (join arcname (node_name k)) k))
                   kids in
        let '(es, ok) := add_in_turn (sort_by_name subs) in
        (EDir arcname :: es, ok)
      else ([EDir arcname], false)
  end.

(** ** ArchiveBuilder: [create_tarball_with_progress] *)

(** One call of [tar.add] made by the walk: for a directory or for a file,
    the entries it wrote, and whether it returned (then the progress counter
    moves) or raised into the handler that logs a warning. *)
Inductive kind := KDir | KFile.

Record added := { a_kind : kind; a_entries : list entry; a_ok : bool }.

(** The directory loop body (lines 159-173). *)
Definition add_directory (cwd source_path : string) (excluded : list string)
    (root : string) (d : node) : list added :=
  let dir_path := join root (node_name d) in
  if excluded_norm excluded (normpath dir_path) then []
  else if negb (node_readable d) then []
  else let '(es, ok) := tar_add dir_path (relpath cwd dir_path source_path) d in
       [{| a_kind := KDir; a_entries := es; a_ok := ok |}].

(** The file loop body (lines 176-203). *)
Definition add_file (cwd source_path : string) (excluded : list string)
    (root : string) (f : node) : list added :=
  let file_path := join root (node_name f) in
  if excluded_norm excluded (normpath file_path) then []
  else if negb (node_readable f) then []
  else match f with
       | File _ _ (Some sz) _ =>
           if (FILE_SIZE_LIMIT <? sz)%Z then []
           else let '(es, ok) := tar_add file_path (relpath cwd file_path source_path) f in
                [{| a_kind := KFile; a_entries := es; a_ok := ok |}]
       | _ => []
       end.

(** The archiving walk (lines 150-203): the calls of [tar.add] in the order
    they are made. *)
Fixpoint build_walk (cwd source_path : string) (excluded : list string)
    (root : string) (n : node) : list added :=
  match n with
  | Dir _ true kids =>
      let keep k := is_dir k && negb (excluded_norm excluded (normpath (join root (node_name k)))) in
      flat_map (add_directory cwd source_path excluded root) (List.filter keep kids)
      ++ flat_map (add_file cwd source_path excluded root) (List.filter is_file kids)
      ++ flat_map (fun k => if keep k
                            then build_walk cwd source_path excluded (join root (node_name k)) k
                            else []) kids
  | _ => []
  end.

Definition archive_calls (w : world) (source_path : string) (exclude_dirs : list string) :
    list added :=
  match resolve w source_path with
  | Some n => build_walk (cwd w) source_path (excluded_normalized_paths exclude_dirs) source_path n
  | None => []
  end.

Definition archive_entries (w : world) (source_path : string) (exclude_dirs : list string) :
    list entry :=
  flat_map a_entries (archive_calls w source_path exclude_dirs).

(** Exceptions that reach the handlers of the build, and where the
    environment makes them occur: opening the temporary archive (with or
    without the file having been created), closing the stream, renaming. *)
Inductive exn :=
| TarError (msg : string)
| OtherError (msg : string).

Record faults := {
  open_fault : option (exn * bool);
  close_fault : option exn;
  rename_fault : option exn
}.

Definition no_faults : faults :=
  {| open_fault := None; close_fault := None; rename_fault := None |}.

(** What an operation does to the outside, in order.  [EvProgress k i n] is
    the message "PROGRESS: Processed i/n directories (files)". *)
Inductive event :=
| EvWalk (top : string)
| EvOpen (p : string)
| EvAdd (p : string) (e : entry)
| EvProgress (k : kind) (processed total : Z)
| EvClose (p : string)
| EvRename (src dst : string)
| EvRemove (p : string).

Definition apply_event (st : gmap string fcontent) (e : event) : gmap string fcontent :=
  match e with
  | EvWalk _ => st
  | EvOpen p => <[p := Stream []]> st
  | EvAdd p x =>
      match st !! p with
      | Some (Stream es) => <[p := Stream (es ++ [x])]> st
      | _ => st
      end
  | EvProgress _ _ _ => st
  | EvClose p =>
      match st !! p with
      | Some (Stream es) => <[p := Archive es]> st
      | _ => st
      end
  | EvRename a b =>
      match st !! a with
      | Some c => <[b := c]> (delete a st)
      | None => st
      end
  | EvRemove p => delete p st
  end.

Definition apply_events (st : gmap string fcontent) (evs : list event) : gmap string fcontent :=
  fold_left apply_event evs st.

(** The events of the walk: the entries of each call, then its progress
    message with the running counter over the total of the scanning pass. *)
Fixpoint walk_events (temp : string) (total_dirs total_files : Z)
    (processed_dirs processed_files : Z) (calls : list added) : list event :=
  match calls with
  | [] => []
  | a :: rest =>
      List.map (EvAdd temp) (a_entries a) ++
      (if a_ok a then
         match a_kind a with
         | KDir => EvProgress KDir (processed_dirs + 1) total_dirs
                   :: walk_events temp total_dirs total_files (processed_dirs + 1) processed_files rest
         | KFile => EvProgress KFile (processed_files + 1) total_files
                    :: walk_events temp total_dirs total_files processed_dirs (processed_files + 1) rest
         end
       else walk_events temp total_dirs total_files processed_dirs processed_files rest)
  end.

Definition build_failure (e : exn) : bool * string :=
  match e with
  | TarError m => (false, "Tarball creation error: " +:+ m)
  | OtherError m => (false, "Failed to create tarball: " +:+ m)
  end.

(** The [finally] clause (lines 214-218). *)
Definition cleanup (st : gmap string fcontent) (temp_dest_path : string) (evs : list event) :
    list event :=
  match apply_events st evs !! temp_dest_path with
  | Some _ => [EvRemove temp_dest_path]
  | None => []
  end.

Definition create_tarball_with_progress (home : string) (w : world) (f : faults)
    (source_path dest_path : string) (exclude_dirs : list string) :
    (bool * string) * list event :=
  let '(total_dirs, total_files, _) := scan_directory home w source_path in
  let temp_dest_path := dest_path +:+ ".tmp" in
  let scanned := [EvWalk source_path] in
  let '(res, evs) :=
    match open_fault f with
    | Some (e, created) =>
        (build_failure e, scanned ++ (if created then [EvOpen temp_dest_path] else []))
    | None =>
        let written :=
          scanned ++ [EvOpen temp_dest_path; EvWalk source_path]
          ++ walk_events temp_dest_path total_dirs total_files 0 0
               (archive_calls w source_path exclude_dirs) in
        match close_fault f with
        | Some e => (build_failure e, written)
        | None =>
            match rename_fault f with
            | Some e => (build_failure e, written ++ [EvClose temp_dest_path])
            | None =>
                ((true, "Tarball created at " +:+ dest_path),
                 written ++ [EvClose temp_dest_path; EvRename temp_dest_path dest_path])
            end
        end
    end in
  (res, evs ++ cleanup (store w) temp_dest_path evs).

Definition after (w : world) (evs : list event) : world :=
  {| cwd := cwd w; resolve := resolve w; store := apply_events (store w) evs |}.

(** ** BackupOperations *)

(** [datetime.now()] as the operations see it. *)
Record datetime := {
  year : Z; month : Z; day : Z; hour : Z; minute : Z; second : Z; microsecond : Z
}.

Definition digit (n : Z) : ascii := ascii_of_nat (48 + Z.to_nat (n mod 10)).

Definition pad2 (n : Z) : string := String (digit (n / 10)) (String (digit n) "").

Definition pad4 (n : Z) : string :=
  String (digit (n / 1000)) (String (digit (n / 100)) (pad2 n)).

(** [strftime("%Y%m%d-%H%M%S")] *)
Definition strftime (t : datetime) : string :=
  pad4 (year t) +:+ pad2 (month t) +:+ pad2 (day t) +:+ "-"
  +:+ pad2 (hour t) +:+ pad2 (minute t) +:+ pad2 (second t).

(** The archive name both operations build: [<subject>_<timestamp>.tar.gz]. *)
Definition backup_name (subject : string) (t : datetime) : string :=
  subject +:+ "_" +:+ strftime t +:+ ".tar.gz".

Definition full_system_backup (home : string) (now : datetime) (w : world) (f : faults) :
    (bool * string) * list event :=
  let backup_path := join (BACKUP_DIR home) (backup_name "full_system" now) in
  let '((success, message), evs) :=
    create_tarball_with_progress home w f "/" backup_path (EXCLUDE_DIRS home) in
  if success then ((true, "Full system backup completed to " +:+ backup_path), evs)
  else ((false, "Full system backup failed: " +:+ message), evs).

Definition specific_directory_backup (home : string) (now : datetime) (w : world) (f : faults)
    (directory : string) : (bool * string) * list event :=
  match resolve w directory with
  | None => ((false, "Directory does not exist: " +:+ directory), [])
  | Some _ =>
      let backup_path := join (BACKUP_DIR home) (backup_name (basename directory) now) in
      let '((success, message), evs) :=
        create_tarball_with_progress home w f directory backup_path [] in
      if success then ((true, "Specific directory backup completed to " +:+ backup_path), evs)
      else ((false, "Specific directory backup failed: " +:+ message), evs)
  end.

(** ** ArchiveExtractor: [restore_backup] *)

(** What extraction leaves under the restore directory, by member name. *)
Inductive fobj :=
| ODir
| OFile (data : string).

(** [tar.extract(member, restore_path)] inside its handler: a directory is
    made unless a file has the name, a file is written unless a directory has
    it; the member that fails is skipped. *)
Definition extract_member (dest : gmap string fobj) (e : entry) : gmap string fobj :=
  match e with
  | EDir a =>
      match dest !! a with
      | Some (OFile _) => dest
      | _ => <[a := ODir]> dest
      end
  | EFile a d =>
      match dest !! a with
      | Some ODir => dest
      | _ => <[a := OFile d]> dest
      end
  end.

Definition extract_all (es : list entry) (dest : gmap string fobj) : gmap string fobj :=
  fold_left extract_member es dest.

(** [restore_backup(backup_file, restore_path)].  [dest] is what the restore
    directory holds, [None] when it is no directory yet; [makedirs_fault] is
    the [OSError] of creating it, if the environment raises one.  A stream
    that was never closed ends before its end-of-stream marker. *)
Definition restore_backup (w : world) (makedirs_fault : option string)
    (backup_file : string) (dest : option (gmap string fobj)) :
    (bool * string) * option (gmap string fobj) :=
  match store w !! backup_file with
  | None => ((false, "Backup file not found."), dest)
  | Some content =>
      let made :=
        match dest with
        | Some d => inl d
        | None => match makedirs_fault with
                  | Some e => inr e
                  | None => inl ∅
                  end
        end in
      match made with
      | inr e => ((false, "Failed to create restore directory: " +:+ e), dest)
      | inl d =>
          match content with
          | Archive es => ((true, "Restore completed successfully."), Some (extract_all es d))
          | Stream _ =>
              ((false, "Failed to restore backup: "
                       +:+ "Compressed file ended before the end-of-stream marker was reached"),
               Some d)
          end
      end
  end.

(** ** Configuration: [save_config], [load_config] *)

(** Values of [json.load]. *)
Inductive json :=
| JNull
| JBool (b : bool)
| JNum (z : Z)
| JStr (s : string)
| JArr (items : list json)
| JObj (fields : list (string * json)).

(** [DEFAULT_CONFIG] *)
Definition DEFAULT_CONFIG (home : string) : json :=
  JObj [("auto_backup_enabled", JBool false);
        ("backup_type", JStr "specific");
        ("specific_dir", JStr home);
        ("frequency", JStr "daily");
        ("time", JStr "00:00")].

(** [d.get(k)] on the dictionary of an object. *)
Fixpoint dict_get (fields : list (string * json)) (k : string) : option json :=
  match fields with
  | [] => None
  | (k', v) :: rest => if String.eqb k k' then Some v else dict_get rest k
  end.

(** The configuration file, as [json.load] finds it: text it cannot parse
    ([JSONDecodeError]), or the document it parses to.  [json.dump] of a
    value writes the document that loads back as that value. *)
Inductive file_text :=
| Unparseable (raw : string)
| Document (j : json).

(** Failures of opening the file to write or to read it, when the
    environment raises them. *)
Record file_faults := {
  write_fault : option string;
  read_fault : option string
}.

Definition save_config (ff : file_faults) (config : json) (file : option file_text) :
    (bool * string) * option file_text :=
  match write_fault ff with
  | Some e => ((false, "Failed to save configuration: " +:+ e), file)
  | None => ((true, "Configuration saved successfully."), Some (Document config))
  end.

(** What the [try] body of [load_config] (lines 80-81) evaluates to: the
    loaded value, or the exception that leaves it. *)
Inductive load_exn :=
| JSONDecodeError
| OSError (msg : string).

Definition open_and_load (ff : file_faults) (file : option file_text) : json + load_exn :=
  match file with
  | None => inr (OSError "No such file or directory")
  | Some text =>
      match read_fault ff with
      | Some e => inr (OSError e)
      | None =>
          match text with
          | Document j => inl j
          | Unparseable _ => inr JSONDecodeError
          end
      end
  end.

Definition load_config (home : string) (ff : file_faults) (file : option file_text) :
    json * option file_text :=
  let file1 :=
    match file with
    | None => snd (save_config ff (DEFAULT_CONFIG home) file)
    | Some _ => file
    end in
  match open_and_load ff file1 with
  | inl j => (j, file1)
  | inr JSONDecodeError => (DEFAULT_CONFIG home, file1)
  | inr (OSError _) => (DEFAULT_CONFIG home, file1)
  end.

(** A structurally complete configuration record: an object that has every
    field of the record. *)
Definition config_keys : list string :=
  ["auto_backup_enabled"; "backup_type"; "specific_dir"; "frequency"; "time"].

Definition structurally_complete (j : json) : bool :=
  match j with
  | JObj fields =>
      forallb (fun k => match dict_get fields k with Some _ => true | None => false end)
              config_keys
  | _ => false
  end.

(** ** ScheduleController: [auto_backup_scheduler] *)

(** Truth value of a loaded value. *)
Definition truthy (j : json) : bool :=
  match j with
  | JNull => false
  | JBool b => b
  | JNum z => negb (z =? 0)%Z
  | JStr s => negb (String.eqb s "")
  | JArr items => match items with [] => false | _ => true end
  | JObj fields => match fields with [] => false | _ => true end
  end.

Definition is_digit (c : ascii) : bool :=
  (48 <=? nat_of_ascii c)%nat && (nat_of_ascii c <=? 57)%nat.

Definition digit_upto (hi : nat) (c : ascii) : bool :=
  (48 <=? nat_of_ascii c)%nat && (nat_of_ascii c <=? 48 + hi)%nat.

(** The hour of [%H]: [2[0-3]], [[0-1]\d] or a single digit. *)
Definition hour_digits (h : list ascii) : bool :=
  match h with
  | [d] => is_digit d
  | [d1; d2] =>
      (Ascii.eqb d1 "2" && digit_upto 3 d2) || (digit_upto 1 d1 && is_digit d2)
  | _ => false
  end.

(** The minute of [%M]: [[0-5]\d] or a single digit. *)
Definition minute_digits (m : list ascii) : bool :=
  match m with
  | [d] => is_digit d
  | [d1; d2] => digit_upto 5 d1 && is_digit d2
  | _ => false
  end.

(** Whether [time.strptime(s, "%H:%M")] returns; otherwise it raises
    [ValueError]. *)
Definition strptime_HM (s : string) : bool :=
  match list_ascii_of_string s with
  | [h; c; m] => Ascii.eqb c ":" && hour_digits [h] && minute_digits [m]
  | [a; b; c; d] =>
      (Ascii.eqb b ":" && hour_digits [a] && minute_digits [c; d])
      || (Ascii.eqb c ":" && hour_digits [a; b] && minute_digits [d])
  | [h1; h2; c; m1; m2] => Ascii.eqb c ":" && hour_digits [h1; h2] && minute_digits [m1; m2]
  | _ => false
  end.

(** A registered job: [every().day] or [every().sunday], [.at(time)], the
    backup it runs, and whether it runs it only on day 1 of the month. *)
Inductive trigger := EveryDay | EverySunday.

Inductive task :=
| TaskFull
| TaskSpecific (specific_dir : json).

Record job := {
  job_trigger : trigger;
  job_at : string;
  job_first_of_month_only : bool;
  job_task : task
}.

(** What the scheduler sees of the outside: the failures of the
    configuration file, [os.path.isdir] on a path and on a file descriptor,
    and the times [at] of [schedule] accepts; on the others it raises
    [ScheduleValueError], and which those are depends on the library's
    version. *)
Record environment := {
  config_faults : file_faults;
  isdir : string -> bool;
  isdir_fd : Z -> bool;
  at_accepts : string -> bool
}.

(** The part of [auto_backup_scheduler] that reads the configuration
    (lines 500-552): disabled, refused by the validation, raising, or the one
    job it registers. *)
Inductive checked :=
| CInactive
| CInvalid
| CRaise (e : string)
| CValid (j : job).

Definition check_config (env : environment) (config : json) : checked :=
  match config with
  | JObj fields =>
      let get k := match dict_get fields k with Some v => v | None => JNull end in
      if negb (truthy (match dict_get fields "auto_backup_enabled" with
                       | Some v => v
                       | None => JBool false
                       end)) then CInactive
      else
        let backup_type := get "backup_type" in
        let specific_dir := get "specific_dir" in
        let frequency := get "frequency" in
        let backup_time := get "time" in
        let is_str (v : json) (s : string) :=
          match v with JStr x => String.eqb x s | _ => false end in
        if negb (is_str backup_type "full" || is_str backup_type "specific") then CInvalid
        else
          let refused : option checked :=
            if is_str backup_type "specific" then
              if negb (truthy specific_dir) then Some CInvalid
              else match specific_dir with
                   | JStr d => if isdir env d then None else Some CInvalid
                   | JNum fd => if isdir_fd env fd then None else Some CInvalid
                   | JBool b =>
                       if isdir_fd env (if b then 1 else 0)%Z then None else Some CInvalid
                   | _ => Some (CRaise "TypeError")
                   end
            else None in
          match refused with
          | Some r => r
          | None =>
              if negb (is_str frequency "daily" || is_str frequency "weekly"
                       || is_str frequency "monthly") then CInvalid
              else
                match backup_time with
                | JStr t =>
                    if strptime_HM t then
                      if at_accepts env t then
                        CValid {| job_trigger := if is_str frequency "weekly"
                                                 then EverySunday else EveryDay;
                                  job_at := t;
                                  job_first_of_month_only := is_str frequency "monthly";
                                  job_task := if is_str backup_type "full" then TaskFull
                                              else TaskSpecific specific_dir |}
                      else CRaise "ScheduleValueError"
                    else CInvalid
                | _ => CRaise "TypeError"
                end
          end
  | _ => CRaise "AttributeError"
  end.

(** The module's scheduler state: [_scheduler_thread] (a thread object, by
    the order of its creation), which runner threads are alive,
    [_stop_scheduler_event], and the job table of [schedule]. *)
Record sched := {
  scheduler_thread : option nat;
  alive : gset nat;
  stop_event : bool;
  jobs : list job;
  created : nat
}.


Definition set_stop (b : bool) (s : sched) : sched :=
  {| scheduler_thread := scheduler_thread s; alive := alive s; stop_event := b;
     jobs := jobs s; created := created s |}.

Definition set_jobs (js : list job) (s : sched) : sched :=
  {| scheduler_thread := scheduler_thread s; alive := alive s; stop_event := stop_event s;
     jobs := js; created := created s |}.

(** A runner leaves its loop ([_run_scheduler]) or dies. *)
Definition exit_thread (t : nat) (s : sched) : sched :=
  {| scheduler_thread := scheduler_thread s; alive := alive s ∖ {[t]};
     stop_event := stop_event s; jobs := jobs s; created := created s |}.

(** [threading.Thread(...).start()] *)
Definition start_thread (s : sched) : sched :=
  {| scheduler_thread := Some (created s); alive := alive s ∪ {[created s]};
     stop_event := stop_event s; jobs := jobs s; created := S (created s) |}.

Definition thread_is_alive (s : sched) : bool :=
  match scheduler_thread s with
  | Some t => bool_decide (t ∈ alive s)
  | None => false
  end.

(** What the previous runner does while [auto_backup_scheduler] runs: whether
    it ends within the five seconds of [join], and whether it ends after them,
    before the last [is_alive] (line 555). *)
Record timing := {
  exits_in_join : bool;
  exits_later : bool
}.

Definition exit_current (s : sched) : sched :=
  match scheduler_thread s with
  | Some t => exit_thread t s
  | None => s
  end.

(** Lines 483-490: the states passed while stopping the previous runner. *)
Definition stop_previous (tm : timing) (s : sched) : list sched :=
  if thread_is_alive s then
    let s1 := set_stop true s in
    [s1; if exits_in_join tm then exit_current s1 else s1]
  else [].

Inductive outcome :=
| Returned (b : bool)
| Raised (e : string).

(** [auto_backup_scheduler]: its outcome, the configuration file afterwards
    and the states the scheduler passes through, in order. *)
Definition auto_backup_scheduler (home : string) (env : environment) (tm : timing)
    (file : option file_text) (s : sched) : outcome * option file_text * list sched :=
  let stopping := stop_previous tm s in
  let s1 := List.last stopping s in
  let s2 := set_stop false s1 in
  let '(config, file') := load_config home (config_faults env) file in
  let s3 := set_jobs [] s2 in
  match check_config env config with
  | CInactive | CInvalid => (Returned false, file', stopping ++ [s2; s3])
  | CRaise e => (Raised e, file', stopping ++ [s2; s3])
  | CValid j =>
      let s4 := set_jobs [j] s3 in
      let s5 := if exits_later tm then exit_current s4 else s4 in
      if thread_is_alive s5 then (Returned true, file', stopping ++ [s2; s3; s4; s5])
      else (Returned true, file', stopping ++ [s2; s3; s4; s5; start_thread s5])
  end.

(** The state [auto_backup_scheduler] leaves. *)
Definition final_sched (s : sched) (r : outcome * option file_text * list sched) : sched :=
  List.last (snd r) s.

(** ** Notions used by the statements *)

(** Dates [datetime.now()] returns today; [%Y] then has four digits. *)
Definition valid_datetime (t : datetime) : Prop :=
  (1000 <= year t <= 9999 /\ 1 <= month t <= 12 /\ 1 <= day t <= 31 /\
   0 <= hour t <= 23 /\ 0 <= minute t <= 59 /\ 0 <= second t <= 59 /\
   0 <= microsecond t <= 999999)%Z.

(** Two instants that differ at most below the second. *)
Definition same_second (t1 t2 : datetime) : Prop :=
  year t1 = year t2 /\ month t1 = month t2 /\ day t1 = day t2 /\
  hour t1 = hour t2 /\ minute t1 = minute t2 /\ second t1 = second t2.

(** The exception that ends a build, if the environment raises one. *)
Definition first_fault (f : faults) : option exn :=
  match open_fault f with
  | Some (e, _) => Some e
  | None =>
      match close_fault f with
      | Some e => Some e
      | None => rename_fault f
      end
  end.


(** Every path below [root] in the tree [n], as the walks name them. *)
Fixpoint tree_paths (root : string) (n : node) : list string :=
  match n with
  | File _ _ _ _ => []
  | Dir _ _ kids =>
      flat_map (fun k => join root (node_name k) :: tree_paths (join root (node_name k)) k) kids
  end.

(** The regular files of the tree [n] with their paths. *)
Fixpoint tree_files (root : string) (n : node) : list (string * node) :=
  match n with
  | File _ _ _ _ => []
  | Dir _ _ kids =>
      flat_map (fun k => if is_file k then [(join root (node_name k), k)]
                         else tree_files (join root (node_name k)) k) kids
  end.

(** The configuration record with the field types the interface writes, and
    the document that holds it. *)
Record BackupConfig := {
  cfg_enabled : bool;
  cfg_backup_type : string;
  cfg_specific_dir : string;
  cfg_frequency : string;
  cfg_time : string
}.

Definition config_json (c : BackupConfig) : json :=
  JObj [("auto_backup_enabled", JBool (cfg_enabled c));
        ("backup_type", JStr (cfg_backup_type c));
        ("specific_dir", JStr (cfg_specific_dir c));
        ("frequency", JStr (cfg_frequency c));
        ("time", JStr (cfg_time c))].


(** The scheduler's invariant: only the thread [_scheduler_thread] names can
    be an alive runner, it was created by an earlier call, and the job table
    holds at most one job. *)
Definition sched_ok (s : sched) : Prop :=
  (forall t, t ∈ alive s -> scheduler_thread s = Some t)
  /\ (forall t, scheduler_thread s = Some t -> t < created s)
  /\ length (jobs s) <= 1.



(** ** Sample inputs *)

Definition sample_home : string := "/home/user".

Definition sample_now : datetime :=
  {| year := 2024; month := 3; day := 9; hour := 7; minute := 5; second := 0;
     microsecond := 120 |}.

Definition sample_later : datetime :=
  {| year := 2024; month := 3; day := 9; hour := 7; minute := 5; second := 0;
     microsecond := 730000 |}.

(** A small root file system: [/var/log/syslog], [/etc/hosts], [/tmp/junk]. *)
Definition sample_root : node :=
  Dir "" true
    [Dir "var" true [Dir "log" true [File "syslog" true (Some 5%Z) "hello"]];
     Dir "etc" true [File "hosts" true (Some 3%Z) "abc"];
     Dir "tmp" true [File "junk" true (Some 1%Z) "j"]].

(** [/mnt/data] with a file and an empty directory. *)
Definition sample_data : node :=
  Dir "data" true [File "a.txt" true (Some 2%Z) "hi"; Dir "sub" true []].

(** [/tmp] itself, with a file and a directory holding one. *)
Definition sample_tmp : node :=
  Dir "tmp" true [File "junk" true (Some 1%Z) "j"; Dir "d" true [File "x" true (Some 1%Z) "x"]].

Definition sample_world : world :=
  {| cwd := "/";
     resolve := fun p =>
       if String.eqb p "/" then Some sample_root
       else if String.eqb p "/mnt/data" then Some sample_data
       else if String.eqb p "/tmp" then Some sample_tmp
       else None;
     store := ∅ |}.

Definition sample_faults : faults :=
  {| open_fault := None; close_fault := Some (OtherError "No space left on device");
     rename_fault := None |}.

Definition no_file_faults : file_faults := {| write_fault := None; read_fault := None |}.

(** Every path is a directory, no descriptor is, and [at] wants two digits
    for the hour and for the minute. *)
Definition sample_env : environment :=
  {| config_faults := no_file_faults;
     isdir := fun _ => true;
     isdir_fd := fun _ => false;
     at_accepts := fun t => Nat.eqb (String.length t) 5 |}.

Definition daily_full : BackupConfig :=
  {| cfg_enabled := true; cfg_backup_type := "full"; cfg_specific_dir := "/home/user";
     cfg_frequency := "daily"; cfg_time := "02:30" |}.





(** A scheduler with runner 0 alive and one job registered. *)
Definition running_sched : sched :=
  {| scheduler_thread := Some 0; alive := {[0]}; stop_event := false;
     jobs := [{| job_trigger := EveryDay; job_at := "01:00";
                 job_first_of_month_only := false; job_task := TaskFull |}];
     created := 1 |}.

(** The previous runner is busy: it ends neither within the join nor after. *)
Definition busy_runner : timing := {| exits_in_join := false; exits_later := false |}.

Definition prompt_runner : timing := {| exits_in_join := true; exits_later := false |}.

(** An event that leaves the path [dest] as it is. *)
Definition harmless (dest : string) (e : event) : Prop :=
  match e with
  | EvOpen p | EvAdd p _ | EvClose p | EvRemove p => p <> dest
  | EvRename a b => a <> dest /\ b <> dest
  | EvWalk _ | EvProgress _ _ _ => True
  end.

(** An event of a build that writes to [temp] only, or publishes [temp] as
    [dest]. *)
Definition targets (temp dest : string) (e : event) : Prop :=
  match e with
  | EvOpen p | EvAdd p _ | EvClose p | EvRemove p => p = temp
  | EvRename a b => a = temp /\ b = dest
  | EvWalk _ | EvProgress _ _ _ => True
  end.

(** Names a directory listing can hold: not empty, not [.] or [..], without
    a separator; and trees all of whose names are such. *)
Definition plain_name (n : string) : bool :=
  negb (String.eqb n "") && negb (String.eqb n ".") && negb (String.eqb n "..")
  && forallb (fun c => negb (Ascii.eqb c sep)) (list_ascii_of_string n).

Fixpoint well_named (n : node) : bool :=
  match n with
  | File _ _ _ _ => true
  | Dir _ _ kids => forallb (fun k => plain_name (node_name k) && well_named k) kids
  end.

(** ** Further notions: configurations the scheduler accepts *)

(** The valid configurations: enabled, a known kind, for a specific backup a
    directory that exists, a known frequency, and a time that [%H:%M] parses
    and [at] accepts. *)
Definition valid_config (env : environment) (c : BackupConfig) : Prop :=
  cfg_enabled c = true
  /\ (cfg_backup_type c = "full"
      \/ (cfg_backup_type c = "specific" /\ cfg_specific_dir c <> ""
          /\ isdir env (cfg_specific_dir c) = true))
  /\ (cfg_frequency c = "daily" \/ cfg_frequency c = "weekly" \/ cfg_frequency c = "monthly")
  /\ strptime_HM (cfg_time c) = true
  /\ at_accepts env (cfg_time c) = true.

(** The job lines 539-552 register for a valid configuration: weekly on
    Sunday, otherwise every day, for monthly with the test of the day of the
    month. *)
Definition expected_job (c : BackupConfig) : job :=
  {| job_trigger := if String.eqb (cfg_frequency c) "weekly" then EverySunday else EveryDay;
     job_at := cfg_time c;
     job_first_of_month_only := String.eqb (cfg_frequency c) "monthly";
     job_task := if String.eqb (cfg_backup_type c) "full" then TaskFull
                 else TaskSpecific (JStr (cfg_specific_dir c)) |}.

Definition weekly_specific : BackupConfig :=
  {| cfg_enabled := true; cfg_backup_type := "specific"; cfg_specific_dir := "/home/user/docs";
     cfg_frequency := "weekly"; cfg_time := "23:59" |}.

(** ** Further notions: members of an archive *)



(** Two small archives in the store. *)
Definition sample_archive : list entry :=
  [EDir "docs"; EFile "docs/a.txt" "alpha"; EFile "b.txt" "beta"].

Definition sample_store_world : world :=
  {| cwd := "/"; resolve := fun _ => None;
     store := <["/home/user/BackupSystemBackups/docs_20240309-070500.tar.gz" :=
                  Archive sample_archive]> ∅ |}.

(** ** Further notions: what a flat directory contributes to its archive *)

(** The entry the archiving walk writes for a file directly below the root:
    none for a file that is excluded, unreadable, of unknown size, or larger
    than [FILE_SIZE_LIMIT]. *)
Definition flat_entry (cwd source : string) (exclude_dirs : list string) (f : node) :
    list entry :=
  match f with
  | File name true (Some sz) data =>
      if is_excluded exclude_dirs (join source name) || (FILE_SIZE_LIMIT <? sz)%Z then []
      else [EFile (relpath cwd (join source name) source) data]
  | _ => []
  end.

(** Trees all of whose nodes are readable, and the number of their nodes. *)
Fixpoint all_readable (n : node) : bool :=
  match n with
  | File _ r _ _ => r
  | Dir _ r kids => r && forallb all_readable kids
  end.

Fixpoint tree_size (n : node) : nat :=
  match n with
  | File _ _ _ _ => 1
  | Dir _ _ kids => S (list_sum (List.map tree_size kids))
  end.

(** A directory of three files, one of them of exactly the size limit and
    one above it. *)
Definition sample_flat : node :=
  Dir "flat" true
    [File "small" true (Some 10%Z) "0123456789";
     File "limit" true (Some (500 * 1024 * 1024)%Z) "...";
     File "large" true (Some (500 * 1024 * 1024 + 1)%Z) "..."].

Definition sample_flat_world : world :=
  {| cwd := "/";
     resolve := fun p => if String.eqb p "/srv/flat" then Some sample_flat else None;
     store := ∅ |}.

(** ** Further notions: names *)


(** * Properties *)

#[local] Arguments String.append : simpl nomatch.

(** [Forall] over a list that is written out. *)
Ltac forall_list tac := repeat (apply List.Forall_cons; [tac|]); apply List.Forall_nil.

(** ** Paths *)

Example normpath_collapses : normpath "/var//log/../log/./x/" = "/var/log/x".
Proof. reflexivity. Qed.

Example normpath_two_slashes : normpath "//a/../../b" = "//b" /\ normpath "///" = "/".
Proof. split; reflexivity. Qed.

Example normpath_relative : normpath "a/../.." = ".." /\ normpath "" = ".".
Proof. split; reflexivity. Qed.

Example join_cases :
  join "/" "etc" = "/etc" /\ join "/var" "log" = "/var/log" /\ join "/a" "/b" = "/b".
Proof. repeat split. Qed.

Example basename_cases :
  basename "/home/u/docs" = "docs" /\ basename "/home/u/" = "" /\ basename "x" = "x".
Proof. repeat split. Qed.

Example relpath_cases :
  relpath "/" "/home/u/docs/a.txt" "/home/u" = "docs/a.txt"
  /\ relpath "/w" "a/b" "a" = "b" /\ relpath "/" "/x" "/x" = ".".
Proof. repeat split. Qed.

Example strptime_cases :
  strptime_HM "00:00" = true /\ strptime_HM "23:59" = true /\ strptime_HM "7:5" = true
  /\ strptime_HM "25:99" = false /\ strptime_HM "24:00" = false
  /\ strptime_HM "12:60" = false /\ strptime_HM "noon" = false.
Proof. repeat split. Qed.

Lemma length_of_append (s t : string) :
  String.length (s +:+ t) = (String.length s + String.length t)%nat.
Proof. induction s as [|c s IH]; simpl; [reflexivity | now rewrite IH]. Qed.

Lemma append_same_length_inj (s1 s2 a b : string) :
  String.length a = String.length b -> s1 +:+ a = s2 +:+ b -> s1 = s2 /\ a = b.
Proof.
  revert s2. induction s1 as [|c s1 IH]; intros [|d s2] Hl H; simpl in H.
  - auto.
  - exfalso. subst a. simpl in Hl. rewrite length_of_append in Hl. lia.
  - exfalso. subst b. simpl in Hl. rewrite length_of_append in Hl. lia.
  - injection H as -> H. destruct (IH _ Hl H) as [-> ->]. auto.
Qed.

Lemma temp_differs (dest : string) : dest +:+ ".tmp" <> dest.
Proof.
  intros H. apply (f_equal String.length) in H.
  rewrite length_of_append in H. simpl in H. lia.
Qed.

(** ** PathFilter *)

(** The test is a raw prefix test on the normalized strings: equality is a
    case of it. *)
Lemma startswith_refl (s : string) : startswith s s = true.
Proof. unfold startswith. induction s as [|c s IH]; simpl; [reflexivity|]. 
  destruct (ascii_dec c c); [exact IH | congruence]. Qed.

Lemma is_excluded_raw_prefix (exclude_dirs : list string) (p : string) :
  is_excluded exclude_dirs p = true <->
  exists e, In e exclude_dirs /\ startswith (normpath p) (normpath e) = true.
Proof.
  unfold is_excluded, excluded_norm, excluded_normalized_paths.
  rewrite orb_true_iff, !existsb_exists. split.
  - intros [[x [Hin Heq]] | [x [Hin Hpre]]].
    + apply in_map_iff in Hin as [e [<- He]]. exists e. split; [exact He|].
      apply String.eqb_eq in Heq. rewrite Heq. apply startswith_refl.
    + apply in_map_iff in Hin as [e [<- He]]. exists e. auto.
  - intros [e [He Hpre]]. right. exists (normpath e). split; [|exact Hpre].
    apply in_map. exact He.
Qed.

(** C1 (the code at the failing input): the test [is_excluded] holds of the
    sibling [/var/logs] against the entry [/var/log], which shares only a raw
    string prefix with it, whereas the segment-wise test the claim describes
    does not; with the client's own list, [/var/logs/app.log] is excluded. *)
Theorem sibling_with_shared_prefix_is_excluded :
  is_excluded ["/var/log"] "/var/logs" = true
  /\ segment_excluded ["/var/log"] "/var/logs" = false
  /\ is_excluded (EXCLUDE_DIRS sample_home) "/var/logs/app.log" = true
  /\ segment_excluded (EXCLUDE_DIRS sample_home) "/var/logs/app.log" = false.
Proof. repeat split; vm_compute; reflexivity. Qed.

(** ** Missing roots *)

(** C3 (counterexample): for the root [/nope], which does not exist, the
    build scans, creates the temporary file, publishes an empty archive and
    returns success. *)
Lemma build_of_missing_root_succeeds :
  resolve sample_world "/nope" = None
  /\ create_tarball_with_progress sample_home sample_world no_faults
       "/nope" "/home/user/BackupSystemBackups/nope.tar.gz" []
     = ((true, "Tarball created at /home/user/BackupSystemBackups/nope.tar.gz"),
        [EvWalk "/nope";
         EvOpen "/home/user/BackupSystemBackups/nope.tar.gz.tmp";
         EvWalk "/nope";
         EvClose "/home/user/BackupSystemBackups/nope.tar.gz.tmp";
         EvRename "/home/user/BackupSystemBackups/nope.tar.gz.tmp"
                  "/home/user/BackupSystemBackups/nope.tar.gz"]).
Proof. split; vm_compute; reflexivity. Qed.

(** C3 (amended): for every directory that does not exist,
    [specific_directory_backup] fails at once with the message "Directory does
    not exist: <directory>", before any walk and before any archive or
    temporary file is created: it has no effect at all. *)
Theorem specific_backup_of_missing_root_fails_fast
    (home : string) (now : datetime) (w : world) (f : faults) (directory : string) :
  resolve w directory = None ->
  specific_directory_backup home now w f directory
  = ((false, "Directory does not exist: " +:+ directory), []).
Proof. intros H. unfold specific_directory_backup. rewrite H. reflexivity. Qed.

Lemma specific_backup_of_missing_root_witness :
  resolve sample_world "/nope" = None
  /\ specific_directory_backup sample_home sample_now sample_world no_faults "/nope"
     = ((false, "Directory does not exist: /nope"), []).
Proof.
  split; [reflexivity|].
  apply (specific_backup_of_missing_root_fails_fast
           sample_home sample_now sample_world no_faults "/nope").
  reflexivity.
Defined.

(** ** The two passes *)

(** C4 (the code at the failing input): in the specific-directory backup of
    [/mnt/data] the scanning pass applies the module's exclusion list, under
    which everything below [/mnt] is excluded, and the archiving pass applies
    the empty one: the scan counts no directory and no file, the archive gets
    both, and progress is reported as 1 of 0. *)
Theorem scan_and_archive_disagree_on_specific_backup :
  scan_file_excluded (EXCLUDE_DIRS sample_home) "/mnt/data/a.txt" = true
  /\ is_excluded [] "/mnt/data/a.txt" = false
  /\ is_excluded (EXCLUDE_DIRS sample_home) "/mnt/data/sub" = true
  /\ is_excluded [] "/mnt/data/sub" = false
  /\ scan_directory sample_home sample_world "/mnt/data" = (0, 0, 0)%Z
  /\ archive_entries sample_world "/mnt/data" [] = [EDir "sub"; EFile "a.txt" "hi"]
  /\ In (EvProgress KFile 1 0)
        (snd (specific_directory_backup sample_home sample_now sample_world no_faults
                "/mnt/data")).
Proof. repeat split; vm_compute; auto 10. Qed.

(** ** Round trip *)

(** C7 (the code at the failing input): a full-system backup of a root that
    holds [/var/log/syslog] succeeds, and restoring its archive into an empty
    directory yields [var/log/syslog], a file the exclusion list excludes:
    [tar.add] of the directory [/var] has added all that is below it. *)
Theorem nested_excluded_file_is_archived_and_restored :
  let r := full_system_backup sample_home sample_now sample_world no_faults in
  let archive := join (BACKUP_DIR sample_home) (backup_name "full_system" sample_now) in
  fst (fst r) = true
  /\ is_excluded (EXCLUDE_DIRS sample_home) "/var/log/syslog" = true
  /\ exists restored,
       restore_backup (after sample_world (snd r)) None archive (Some ∅)
       = ((true, "Restore completed successfully."), Some restored)
       /\ restored !! "var/log/syslog" = Some (OFile "hello").
Proof.
  repeat split; try (vm_compute; reflexivity).
  eexists. split; [reflexivity|]. vm_compute. reflexivity.
Qed.

(** ** Archive names *)

Lemma digit_inj (a b : Z) : digit a = digit b -> (a mod 10 = b mod 10)%Z.
Proof.
  unfold digit. intros H.
  apply (f_equal nat_of_ascii) in H.
  pose proof (Z.mod_pos_bound a 10 eq_refl).
  pose proof (Z.mod_pos_bound b 10 eq_refl).
  rewrite !nat_ascii_embedding in H by lia.
  lia.
Qed.

Lemma strftime_length (t : datetime) : String.length (strftime t) = 15%nat.
Proof. reflexivity. Qed.

Lemma strftime_inj (t1 t2 : datetime) :
  valid_datetime t1 -> valid_datetime t2 -> strftime t1 = strftime t2 -> same_second t1 t2.
Proof.
  unfold valid_datetime, same_second, strftime. intros V1 V2 H.
  unfold pad4, pad2 in H. simpl in H.
  injection H as Hy3 Hy2 Hy1 Hy0 Hm1 Hm0 Hd1 Hd0 Hh1 Hh0 Hi1 Hi0 Hs1 Hs0.
  repeat match goal with E : digit _ = digit _ |- _ => apply digit_inj in E end.
  Z.div_mod_to_equations. lia.
Qed.

Lemma strftime_same_second (t1 t2 : datetime) :
  same_second t1 t2 -> strftime t1 = strftime t2.
Proof.
  unfold same_second, strftime. intros (-> & -> & -> & -> & -> & ->). reflexivity.
Qed.

(** C9 (counterexample): two invocations of the full-system backup within
    the same second, at different instants, produce the same archive name. *)
Lemma invocations_in_one_second_collide :
  sample_now <> sample_later
  /\ valid_datetime sample_now /\ valid_datetime sample_later
  /\ backup_name "full_system" sample_now = backup_name "full_system" sample_later.
Proof.
  split; [discriminate|]. split; [|split]; try reflexivity;
    unfold valid_datetime; simpl; lia.
Qed.

(** C9 (amended): the archive names [<subject>_<YYYYMMDD-HHMMSS>.tar.gz] of
    two invocations collide exactly when the invocations have the same
    subject and fall into the same second; invocations whose times differ at
    second-level granularity never collide. *)
Theorem backup_names_collide_iff_same_subject_and_second
    (subject1 subject2 : string) (t1 t2 : datetime) :
  valid_datetime t1 -> valid_datetime t2 ->
  (backup_name subject1 t1 = backup_name subject2 t2
   <-> subject1 = subject2 /\ same_second t1 t2).
Proof.
  intros V1 V2. unfold backup_name. split.
  - intros H.
    apply append_same_length_inj in H.
    + destruct H as [-> H]. split; [reflexivity|].
      apply append_same_length_inj in H;
        [|rewrite !length_of_append, !strftime_length; reflexivity].
      destruct H as [_ H].
      apply append_same_length_inj in H; [|reflexivity].
      apply strftime_inj; tauto.
    + rewrite !length_of_append, !strftime_length. reflexivity.
  - intros [-> H]. now rewrite (strftime_same_second _ _ H).
Qed.

Lemma backup_names_collide_witness :
  valid_datetime sample_now /\ valid_datetime sample_later
  /\ (backup_name "full_system" sample_now = backup_name "data" sample_later
      <-> "full_system" = "data" /\ same_second sample_now sample_later).
Proof.
  assert (V1 : valid_datetime sample_now) by (unfold valid_datetime; simpl; lia).
  assert (V2 : valid_datetime sample_later) by (unfold valid_datetime; simpl; lia).
  split; [exact V1|]. split; [exact V2|].
  exact (backup_names_collide_iff_same_subject_and_second
           "full_system" "data" sample_now sample_later V1 V2).
Defined.

(** ** Loading the configuration *)

Lemma default_config_complete (home : string) :
  structurally_complete (DEFAULT_CONFIG home) = true.
Proof. reflexivity. Qed.

(** C10 (counterexample): the configuration file holds the well-formed
    document [{}]; [load_config] returns it as it is, and it is not a
    structurally complete record. *)
Lemma load_config_returns_incomplete_record :
  fst (load_config sample_home no_file_faults (Some (Document (JObj [])))) = JObj []
  /\ structurally_complete
       (fst (load_config sample_home no_file_faults (Some (Document (JObj []))))) = false.
Proof. split; reflexivity. Qed.

(** C10 (amended): [load_config] returns for every state of the
    configuration file and every failure of reading or writing it.  The
    record it returns is structurally complete when the file is absent,
    cannot be read, cannot be parsed, or holds a structurally complete
    record; a parseable document is returned as it is.  When the file exists
    it is left unchanged, and when it cannot be parsed the default
    configuration is returned. *)
Theorem load_config_total (home : string) (ff : file_faults) (file : option file_text) :
  let r := load_config home ff file in
  (forall j, file = Some (Document j) -> read_fault ff = None -> fst r = j)
  /\ ((forall j, file = Some (Document j) -> read_fault ff = None ->
                 structurally_complete j = true) ->
      structurally_complete (fst r) = true)
  /\ (forall raw, file = Some (Unparseable raw) -> r = (DEFAULT_CONFIG home, file))
  /\ (forall text, file = Some text -> snd r = file)
  /\ (file = None -> fst r = DEFAULT_CONFIG home).
Proof.
  unfold load_config, open_and_load, save_config.
  destruct file as [[raw|j]|]; cbn beta iota zeta.
  - destruct (read_fault ff); simpl; intuition (try discriminate; auto).
  - destruct (read_fault ff) eqn:R; simpl; intuition (try discriminate; auto; congruence).
  - destruct (write_fault ff); simpl; destruct (read_fault ff); simpl;
      intuition (try discriminate; auto).
Qed.

Lemma load_config_total_witness :
  let file := Some (Document (config_json daily_full)) in
  fst (load_config sample_home no_file_faults file) = config_json daily_full
  /\ structurally_complete (fst (load_config sample_home no_file_faults file)) = true
  /\ load_config sample_home no_file_faults (Some (Unparseable "{oops"))
     = (DEFAULT_CONFIG sample_home, Some (Unparseable "{oops")).
Proof.
  split; [|split].
  - apply (load_config_total sample_home no_file_faults
             (Some (Document (config_json daily_full)))); reflexivity.
  - apply (load_config_total sample_home no_file_faults
             (Some (Document (config_json daily_full)))).
    intros j H _. injection H as <-. reflexivity.
  - apply (load_config_total sample_home no_file_faults (Some (Unparseable "{oops"))
             ) with (raw := "{oops"). reflexivity.
Defined.

(** ** Atomic publication *)

Section Events.
Variables (temp dest : string).
Hypothesis distinct : temp <> dest.

Lemma apply_event_harmless (st : gmap string fcontent) (e : event) :
  harmless dest e -> apply_event st e !! dest = st !! dest.
Proof.
  destruct e as [top|p|p x|k i n|p|a b|p]; simpl; intros H; try reflexivity.
  - by rewrite lookup_insert_ne.
  - destruct (st !! p) as [[es|es]|]; try reflexivity. by rewrite lookup_insert_ne.
  - destruct (st !! p) as [[es|es]|]; try reflexivity. by rewrite lookup_insert_ne.
  - destruct H as [Ha Hb]. destruct (st !! a); try reflexivity.
    rewrite lookup_insert_ne by done. by rewrite lookup_delete_ne.
  - by rewrite lookup_delete_ne.
Qed.

Lemma apply_events_harmless (evs : list event) (st : gmap string fcontent) :
  Forall (harmless dest) evs -> apply_events st evs !! dest = st !! dest.
Proof.
  unfold apply_events. revert st. induction evs as [|e evs IH]; intros st H; simpl.
  - reflexivity.
  - inversion H; subst. rewrite IH by assumption. by apply apply_event_harmless.
Qed.

Lemma targets_temp_harmless (e : event) :
  targets temp dest e -> (forall a b, e <> EvRename a b) -> harmless dest e.
Proof.
  destruct e; simpl; intros H N; subst; try done. exfalso. by eapply N.
Qed.

Lemma walk_events_targets td tf pd pf calls :
  Forall (fun e => targets temp dest e /\ harmless dest e) (walk_events temp td tf pd pf calls).
Proof.
  revert pd pf. induction calls as [|a calls IH]; intros pd pf; simpl; [constructor|].
  apply Forall_app. split.
  - apply Forall_forall. intros e He. apply list_elem_of_In in He.
    apply in_map_iff in He as [x [<- _]]. simpl. auto.
  - destruct (a_ok a); [destruct (a_kind a)|]; try constructor; simpl; auto.
Qed.

Lemma apply_adds (es : list entry) (st : gmap string fcontent) (es0 : list entry) :
  st !! temp = Some (Stream es0) ->
  apply_events st (List.map (EvAdd temp) es) = <[temp := Stream (es0 ++ es)]> st.
Proof.
  unfold apply_events. revert st es0. induction es as [|x es IH]; intros st es0 H; simpl.
  - rewrite app_nil_r. symmetry. by apply insert_id.
  - rewrite H. rewrite (IH _ (es0 ++ [x])) by apply lookup_insert_eq.
    rewrite insert_insert_eq. by rewrite <- app_assoc.
Qed.

Lemma apply_walk_events td tf calls pd pf (st : gmap string fcontent) (es0 : list entry) :
  st !! temp = Some (Stream es0) ->
  apply_events st (walk_events temp td tf pd pf calls)
  = <[temp := Stream (es0 ++ flat_map a_entries calls)]> st.
Proof.
  revert pd pf st es0. induction calls as [|a calls IH]; intros pd pf st es0 H; simpl.
  - rewrite app_nil_r. symmetry. by apply insert_id.
  - unfold apply_events. rewrite fold_left_app.
    fold (apply_events st (List.map (EvAdd temp) (a_entries a))).
    rewrite (apply_adds _ _ es0 H).
    assert (L : <[temp := Stream (es0 ++ a_entries a)]> st !! temp
                = Some (Stream (es0 ++ a_entries a))) by apply lookup_insert_eq.
    destruct (a_ok a); [destruct (a_kind a)|]; simpl;
      match goal with
      | |- fold_left apply_event ?l ?s = _ => fold (apply_events s l)
      end;
      rewrite (IH _ _ _ _ L), insert_insert_eq, <- app_assoc; reflexivity.
Qed.

Lemma cleanup_removes (st : gmap string fcontent) (evs : list event) :
  apply_events st (evs ++ cleanup st temp evs) !! temp = None.
Proof.
  unfold apply_events, cleanup. rewrite fold_left_app.
  fold (apply_events st evs).
  destruct (apply_events st evs !! temp) eqn:E; simpl.
  - apply lookup_delete_eq.
  - exact E.
Qed.

Lemma cleanup_harmless (st : gmap string fcontent) (evs : list event) :
  Forall (fun e => targets temp dest e /\ harmless dest e) (cleanup st temp evs).
Proof.
  unfold cleanup. destruct (_ !! temp); repeat constructor; simpl; auto.
Qed.

Lemma failing_run (st : gmap string fcontent) (body : list event) :
  Forall (fun e => targets temp dest e /\ harmless dest e) body ->
  Forall (targets temp dest) (body ++ cleanup st temp body)
  /\ (forall n, apply_events st (take n (body ++ cleanup st temp body)) !! dest = st !! dest)
  /\ apply_events st (body ++ cleanup st temp body) !! temp = None.
Proof.
  intros H.
  assert (A : Forall (fun e => targets temp dest e /\ harmless dest e)
                     (body ++ cleanup st temp body)).
  { apply Forall_app. split; [exact H | apply cleanup_harmless]. }
  split; [|split].
  - eapply Forall_impl; [exact A|]. simpl. tauto.
  - intros n. apply apply_events_harmless. apply Forall_take.
    eapply Forall_impl; [exact A|]. simpl. tauto.
  - apply cleanup_removes.
Qed.

Lemma successful_run (st : gmap string fcontent) (source : string) td tf calls :
  let body := (EvWalk source :: EvOpen temp :: EvWalk source
               :: walk_events temp td tf 0 0 calls)
              ++ [EvClose temp; EvRename temp dest] in
  cleanup st temp body = []
  /\ Forall (targets temp dest) body
  /\ apply_events st body !! dest = Some (Archive (flat_map a_entries calls))
  /\ apply_events st body !! temp = None
  /\ (forall n, apply_events st (take n body) !! dest = st !! dest
                \/ apply_events st (take n body) !! dest
                   = Some (Archive (flat_map a_entries calls))).
Proof.
  intros body.
  assert (S1 : apply_events st body
               = <[dest := Archive (flat_map a_entries calls)]>
                   (delete temp (<[temp := Archive (flat_map a_entries calls)]>
                                   (<[temp := Stream (flat_map a_entries calls)]> st)))).
  { unfold body, apply_events. rewrite fold_left_app. simpl.
    match goal with
    | |- context [fold_left apply_event (walk_events ?a ?b ?c ?d ?e ?f) ?s] =>
        fold (apply_events s (walk_events a b c d e f));
        rewrite (apply_walk_events b c f d e s [] (lookup_insert_eq _ _ _))
    end.
    rewrite insert_insert_eq. simpl.
    rewrite lookup_insert_eq. rewrite lookup_insert_eq. rewrite insert_insert_eq.
    reflexivity. }
  assert (T : apply_events st body !! temp = None).
  { rewrite S1. rewrite lookup_insert_ne by done. apply lookup_delete_eq. }
  assert (P : Forall (fun e => targets temp dest e /\ harmless dest e)
                ((EvWalk source :: EvOpen temp :: EvWalk source
                  :: walk_events temp td tf 0 0 calls) ++ [EvClose temp])).
  { apply Forall_app. split.
    - repeat (constructor; [simpl; auto|]). apply walk_events_targets.
    - repeat constructor; simpl; auto. }
  split; [|split; [|split; [|split]]].
  - unfold cleanup. by rewrite T.
  - unfold body.
    replace [EvClose temp; EvRename temp dest]
      with ([EvClose temp] ++ [EvRename temp dest]) by reflexivity.
    rewrite app_assoc. apply Forall_app. split.
    + eapply Forall_impl; [exact P|]. simpl. tauto.
    + repeat constructor.
  - rewrite S1. apply lookup_insert_eq.
  - exact T.
  - intros n.
    assert (B : body = ((EvWalk source :: EvOpen temp :: EvWalk source
                         :: walk_events temp td tf 0 0 calls) ++ [EvClose temp])
                       ++ [EvRename temp dest]).
    { unfold body. by rewrite <- app_assoc. }
    destruct (decide (n <= length ((EvWalk source :: EvOpen temp :: EvWalk source
                         :: walk_events temp td tf 0 0 calls) ++ [EvClose temp]))) as [Hn|Hn].
    + left. rewrite B. rewrite take_app_le by exact Hn.
      apply apply_events_harmless. apply Forall_take.
      eapply Forall_impl; [exact P|]. simpl. tauto.
    + right. rewrite take_ge.
      * rewrite S1. apply lookup_insert_eq.
      * rewrite B, length_app. simpl in Hn |- *. lia.
Qed.
End Events.






(** ** The scheduler *)

Lemma check_default_inactive (env : environment) (home : string) :
  check_config env (DEFAULT_CONFIG home) = CInactive.
Proof. reflexivity. Qed.



Lemma sched_ok_set_stop (b : bool) (s : sched) : sched_ok s -> sched_ok (set_stop b s).
Proof. unfold sched_ok. simpl. tauto. Qed.

Lemma sched_ok_set_jobs (js : list job) (s : sched) :
  length js <= 1 -> sched_ok s -> sched_ok (set_jobs js s).
Proof. unfold sched_ok. simpl. tauto. Qed.

Lemma sched_ok_exit_current (s : sched) : sched_ok s -> sched_ok (exit_current s).
Proof.
  unfold sched_ok, exit_current. intros (A & C & J).
  destruct (scheduler_thread s) as [t|] eqn:E; simpl; [|rewrite E; auto].
  rewrite E. split; [|split]; auto.
  intros t' Ht. apply A. apply elem_of_difference in Ht as [Ht _]. exact Ht.
Qed.

Lemma sched_ok_start_thread (s : sched) :
  sched_ok s -> thread_is_alive s = false -> sched_ok (start_thread s).
Proof.
  unfold sched_ok, thread_is_alive, start_thread. intros (A & C & J) N. simpl.
  split; [|split]; auto.
  - intros t H. apply elem_of_union in H as [H|H].
    + exfalso. pose proof (A t H) as E. rewrite E in N.
      apply bool_decide_eq_false in N. contradiction.
    + apply elem_of_singleton in H. by subst.
  - intros t [= <-]. lia.
Qed.

Lemma sched_ok_bounds (s : sched) :
  sched_ok s -> size (alive s) <= 1 /\ length (jobs s) <= 1.
Proof.
  intros (A & C & J). split; [|exact J].
  destruct (scheduler_thread s) as [t|] eqn:E.
  - rewrite <- (size_singleton (C:=gset nat) t). apply subseteq_size.
    intros x Hx. pose proof (A x Hx) as [= ->]. set_solver.
  - replace (alive s) with (∅ : gset nat); [rewrite size_empty; lia|].
    symmetry. apply leibniz_equiv. apply elem_of_equiv_empty. intros x Hx.
    pose proof (A x Hx). discriminate.
Qed.

Lemma last_Forall {A} (P : A -> Prop) (l : list A) (d : A) :
  Forall P l -> P d -> P (List.last l d).
Proof.
  induction l as [|x l IH]; intros H Hd; [exact Hd|].
  inversion H; subst. destruct l as [|y l]; [assumption|].
  change (P (List.last (y :: l) d)). auto.
Qed.

Lemma stop_previous_ok (tm : timing) (s : sched) :
  sched_ok s -> Forall sched_ok (stop_previous tm s).
Proof.
  intros H. unfold stop_previous. destruct (thread_is_alive s); [|constructor].
  forall_list ltac:(first [ by apply sched_ok_set_stop
                          | destruct (exits_in_join tm);
                            [apply sched_ok_exit_current|]; by apply sched_ok_set_stop ]).
Qed.

Lemma scheduler_trace_ok home env tm file (s : sched) :
  sched_ok s ->
  Forall sched_ok (snd (auto_backup_scheduler home env tm file s))
  /\ sched_ok (final_sched s (auto_backup_scheduler home env tm file s)).
Proof.
  intros H.
  assert (T : Forall sched_ok (snd (auto_backup_scheduler home env tm file s))).
  { unfold auto_backup_scheduler.
    pose proof (stop_previous_ok tm s H) as S.
    set (stopping := stop_previous tm s) in *.
    assert (S1 : sched_ok (List.last stopping s)) by (by apply last_Forall).
    set (s1 := List.last stopping s) in *.
    assert (S2 : sched_ok (set_stop false s1)) by (by apply sched_ok_set_stop).
    assert (S3 : sched_ok (set_jobs [] (set_stop false s1)))
      by (apply sched_ok_set_jobs; [simpl; lia | exact S2]).
    destruct (load_config home (config_faults env) file) as [config file'].
    destruct (check_config env config) as [| |e|j]; simpl;
      try (apply Forall_app; split; [exact S | forall_list assumption]).
    assert (S4 : sched_ok (set_jobs [j] (set_jobs [] (set_stop false s1))))
      by (apply sched_ok_set_jobs; [simpl; lia | exact S3]).
    set (s4 := set_jobs [j] _) in *.
    assert (S5 : sched_ok (if exits_later tm then exit_current s4 else s4))
      by (destruct (exits_later tm); [by apply sched_ok_exit_current | exact S4]).
    set (s5 := if exits_later tm then _ else _) in *.
    destruct (thread_is_alive s5) eqn:L; simpl;
      apply Forall_app; (split; [exact S|]);
      forall_list ltac:(first [assumption | by apply sched_ok_start_thread]). }
  split; [exact T|]. unfold final_sched. by apply last_Forall.
Qed.



Lemma stop_previous_last (tm : timing) (s : sched) :
  let s1 := List.last (stop_previous tm s) s in
  scheduler_thread s1 = scheduler_thread s /\ created s1 = created s
  /\ jobs s1 = jobs s /\ alive s1 ⊆ alive s
  /\ (forall t, scheduler_thread s = Some t -> exits_in_join tm = true -> t ∉ alive s1).
Proof.
  unfold stop_previous, thread_is_alive, exit_current.
  destruct (scheduler_thread s) as [t|] eqn:E; simpl.
  - destruct (bool_decide (t ∈ alive s)) eqn:B; simpl.
    + destruct (exits_in_join tm); simpl; rewrite ?E; simpl.
      * split; [congruence|]. split; [reflexivity|]. split; [reflexivity|].
        split; [apply subseteq_difference_l; reflexivity|].
        intros t' [= <-] _. apply not_elem_of_difference. right.
        by apply elem_of_singleton.
      * split; [congruence|]. split; [reflexivity|]. split; [reflexivity|].
        split; [reflexivity|]. intros t' _ D. discriminate.
    + apply bool_decide_eq_false in B. rewrite E.
      split; [congruence|]. split; [reflexivity|]. split; [reflexivity|].
      split; [reflexivity|]. intros t' [= <-] _. exact B.
  - rewrite E. split; [congruence|]. split; [reflexivity|]. split; [reflexivity|].
    split; [reflexivity|]. intros t' D. discriminate.
Qed.

Lemma last_of_two {A} (l : list A) (a b d : A) : List.last (l ++ [a; b]) d = b.
Proof.
  replace (l ++ [a; b]) with ((l ++ [a]) ++ [b]) by (by rewrite <- app_assoc).
  apply last_last.
Qed.





Section OneCall.
Variables (home : string) (env : environment).
Variables (tm : timing) (file : option file_text) (s : sched) (t : nat).
Hypothesis ok : sched_ok s.
Hypothesis current : scheduler_thread s = Some t.
Hypothesis running : t ∈ alive s.

Let r := auto_backup_scheduler home env tm file s.



End OneCall.



Lemma sched_ok_running : sched_ok running_sched.
Proof.
  unfold sched_ok, running_sched. simpl. split; [|split].
  - intros t Ht. apply elem_of_singleton in Ht. by subst.
  - intros t [= <-]. lia.
  - lia.
Qed.


(** ** Paths below an absolute root *)

Lemma append_assoc (a b c : string) : (a +:+ b) +:+ c = a +:+ (b +:+ c).
Proof. induction a as [|x a IH]; simpl; [reflexivity | now rewrite IH]. Qed.

Lemma append_empty_r (a : string) : a +:+ "" = a.
Proof. induction a as [|x a IH]; simpl; [reflexivity | now rewrite IH]. Qed.

Lemma prefix_empty (b : string) : String.prefix "" b = true.
Proof. destruct b; reflexivity. Qed.

Lemma prefix_cons (a b : ascii) (s1 s2 : string) :
  String.prefix (String a s1) (String b s2)
  = if Ascii.eqb a b then String.prefix s1 s2 else false.
Proof.
  cbn [String.prefix].
  destruct (ascii_dec a b) as [->|N]; [now rewrite Ascii.eqb_refl|].
  apply Ascii.eqb_neq in N. now rewrite N.
Qed.

Lemma prefix_append (a b : string) : String.prefix a (a +:+ b) = true.
Proof.
  induction a as [|x a IH]; simpl; [apply prefix_empty|].
  destruct (ascii_dec x x); [exact IH | congruence].
Qed.

Lemma prefix_trans (a b c : string) :
  String.prefix a b = true -> String.prefix b c = true -> String.prefix a c = true.
Proof.
  revert b c. induction a as [|x a IH]; intros b c H1 H2; [apply prefix_empty|].
  destruct b as [|y b]; simpl in H1; [discriminate|].
  destruct (ascii_dec x y) as [->|]; [|discriminate].
  destruct c as [|z c]; simpl in H2; [discriminate|].
  destruct (ascii_dec y z) as [->|]; [|discriminate].
  simpl. destruct (ascii_dec z z); [|congruence]. eauto.
Qed.

Lemma split_not_nil (s : string) : split s <> [].
Proof.
  destruct s as [|c s]; simpl; [discriminate|].
  destruct (Ascii.eqb c sep); [discriminate|]. destruct (split s); discriminate.
Qed.

Lemma split_append_sep (a b : string) :
  split (a +:+ String sep b) = split a ++ split b.
Proof.
  induction a as [|c a IH]; simpl.
  - reflexivity.
  - rewrite IH. destruct (Ascii.eqb c sep); [reflexivity|].
    pose proof (split_not_nil a). destruct (split a); [congruence | reflexivity].
Qed.

Lemma split_without_sep (n : string) :
  forallb (fun c => negb (Ascii.eqb c sep)) (list_ascii_of_string n) = true ->
  split n = [n].
Proof.
  induction n as [|c n IH]; simpl; [reflexivity|].
  intros H. apply andb_true_iff in H as [Hc Hn].
  apply negb_true_iff in Hc. rewrite Hc, (IH Hn). reflexivity.
Qed.

Lemma ends_with_sep_inv (a : string) :
  ends_with_sep a = true -> exists a', a = a' +:+ "/".
Proof.
  induction a as [|c a IH]; simpl; [discriminate|].
  destruct a as [|d a].
  - intros H. apply Ascii.eqb_eq in H. subst c. exists "". reflexivity.
  - intros H. destruct (IH H) as [a' E]. exists (String c a'). simpl. now rewrite <- E.
Qed.

Lemma fold_left_snoc {A B} (f : A -> B -> A) (l : list B) (x : B) (a : A) :
  fold_left f (l ++ [x]) a = f (fold_left f l a) x.
Proof. rewrite fold_left_app. reflexivity. Qed.

Lemma plain_name_inv (n : string) :
  plain_name n = true ->
  n <> "" /\ n <> "." /\ n <> ".."
  /\ forallb (fun c => negb (Ascii.eqb c sep)) (list_ascii_of_string n) = true.
Proof.
  unfold plain_name. rewrite !andb_true_iff, !negb_true_iff.
  intros [[[H1 H2] H3] H4]. apply String.eqb_neq in H1, H2, H3. tauto.
Qed.

Lemma norm_step_plain (k : nat) (st : list string) (n : string) :
  plain_name n = true -> norm_step k st n = n :: st.
Proof.
  intros H. apply plain_name_inv in H as (H1 & H2 & H3 & _).
  unfold norm_step. apply String.eqb_neq in H1, H2, H3. rewrite H1, H2, H3. reflexivity.
Qed.

Lemma plain_not_absolute (n : string) : plain_name n = true -> startswith n "/" = false.
Proof.
  intros H. apply plain_name_inv in H as (H1 & _ & _ & H4).
  destruct n as [|c n]; [congruence|]. simpl in H4.
  apply andb_true_iff in H4 as [Hc _]. apply negb_true_iff in Hc.
  unfold startswith. rewrite prefix_cons, Ascii.eqb_sym. fold sep. now rewrite Hc.
Qed.

(** The components of [join q n] are those of [q] and then [n]. *)
Lemma norm_fold_join (k : nat) (q n : string) :
  q <> "" -> plain_name n = true ->
  fold_left (norm_step k) (split (join q n)) [] = n :: fold_left (norm_step k) (split q) [].
Proof.
  intros Hq Hn. pose proof (plain_name_inv n Hn) as (_ & _ & _ & Hs).
  unfold join. rewrite (plain_not_absolute n Hn).
  apply String.eqb_neq in Hq. rewrite Hq. simpl.
  destruct (ends_with_sep q) eqn:E.
  - apply ends_with_sep_inv in E as [q' ->].
    rewrite append_assoc. simpl.
    rewrite !split_append_sep, (split_without_sep n Hs). simpl.
    rewrite !fold_left_snoc. rewrite (norm_step_plain _ _ _ Hn). reflexivity.
  - change (q +:+ "/" +:+ n) with (q +:+ String sep n).
    rewrite split_append_sep, (split_without_sep n Hs), fold_left_snoc.
    apply norm_step_plain. exact Hn.
Qed.

Lemma prefix_of_empty (a : ascii) (s : string) : String.prefix (String a s) "" = false.
Proof. reflexivity. Qed.

Ltac prefix_tests :=
  unfold initial_slashes, startswith; cbn [String.append];
  repeat first [ rewrite prefix_cons | rewrite prefix_empty | rewrite prefix_of_empty ].

Lemma initial_slashes_join (q n : string) :
  startswith q "/" = true -> plain_name n = true ->
  initial_slashes (join q n) = initial_slashes q.
Proof.
  intros Hq Hn. pose proof (plain_not_absolute n Hn) as Hna.
  unfold join. rewrite Hna.
  destruct n as [|c n]; [discriminate|].
  unfold startswith in Hq, Hna. rewrite prefix_cons in Hna.
  destruct q as [|c1 q]; [discriminate|]. rewrite prefix_cons in Hq.
  destruct (Ascii.eqb "/" c1) eqn:E1; [|discriminate].
  destruct (Ascii.eqb "/" c) eqn:Ec; [rewrite prefix_empty in Hna; discriminate|].
  cbn [String.eqb orb].
  destruct q as [|c2 [|c3 q]].
  - cbn [ends_with_sep]. unfold sep. rewrite Ascii.eqb_sym, E1.
    prefix_tests. rewrite E1, Ec. reflexivity.
  - cbn [ends_with_sep]. unfold sep. rewrite (Ascii.eqb_sym c2).
    destruct (Ascii.eqb "/" c2) eqn:E2; prefix_tests; rewrite ?E1, ?E2, ?Ec; reflexivity.
  - destruct (ends_with_sep _); prefix_tests; reflexivity.
Qed.

Lemma concat_snoc (l : list string) (n : string) :
  l <> [] -> join_sep (l ++ [n]) = join_sep l +:+ "/" +:+ n.
Proof.
  unfold join_sep. induction l as [|x l IH]; intros H; [congruence|].
  destruct l as [|y l]; [reflexivity|].
  change (String.concat "/" ((x :: y :: l) ++ [n]))
    with (x +:+ "/" +:+ String.concat "/" ((y :: l) ++ [n])).
  rewrite IH by discriminate.
  change (String.concat "/" (x :: y :: l)) with (x +:+ "/" +:+ String.concat "/" (y :: l)).
  now rewrite !append_assoc.
Qed.

Lemma join_absolute (q n : string) :
  startswith q "/" = true -> plain_name n = true -> startswith (join q n) "/" = true.
Proof.
  intros Hq Hn. unfold join. rewrite (plain_not_absolute n Hn).
  destruct q as [|c q]; [discriminate|].
  cbn [String.eqb orb]. unfold startswith in *. rewrite prefix_cons in Hq.
  destruct (ends_with_sep _); cbn [String.append]; rewrite prefix_cons;
    destruct (Ascii.eqb "/" c); try discriminate; apply prefix_empty.
Qed.

Lemma normpath_absolute (q : string) :
  startswith q "/" = true ->
  normpath q
  = repeat_sep (initial_slashes q)
    +:+ join_sep (rev (fold_left (norm_step (initial_slashes q)) (split q) [])).
Proof.
  intros Hq. unfold normpath.
  assert (K : exists k, initial_slashes q = S k).
  { unfold initial_slashes. rewrite Hq. destruct (_ && _); eauto. }
  destruct K as [k ->].
  destruct q as [|c q]; [discriminate|]. reflexivity.
Qed.

Lemma normpath_join_prefix (q n : string) :
  startswith q "/" = true -> plain_name n = true ->
  startswith (normpath (join q n)) (normpath q) = true.
Proof.
  intros Hq Hn.
  assert (Q : q <> "") by (intros ->; discriminate).
  rewrite (normpath_absolute _ (join_absolute q n Hq Hn)), (normpath_absolute q Hq).
  rewrite (initial_slashes_join q n Hq Hn), (norm_fold_join _ q n Q Hn).
  unfold startswith. cbn [rev].
  destruct (rev (fold_left (norm_step (initial_slashes q)) (split q) [])) as [|x l].
  - cbn [app]. unfold join_sep at 2. cbn [String.concat].
    rewrite append_empty_r. apply prefix_append.
  - rewrite concat_snoc by discriminate. rewrite <- append_assoc. apply prefix_append.
Qed.

Lemma excluded_below (excl : list string) (q n : string) :
  startswith q "/" = true -> plain_name n = true ->
  is_excluded excl q = true -> is_excluded excl (join q n) = true.
Proof.
  intros Hq Hn H. apply is_excluded_raw_prefix in H as [e [He Hp]].
  apply is_excluded_raw_prefix. exists e. split; [exact He|].
  unfold startswith in *. eapply prefix_trans; [exact Hp|].
  exact (normpath_join_prefix q n Hq Hn).
Qed.

Lemma node_nested_ind (P : node -> Prop) :
  (forall nm r sz d, P (File nm r sz d)) ->
  (forall nm r kids, Forall P kids -> P (Dir nm r kids)) ->
  forall n, P n.
Proof.
  intros HF HD. fix IH 1. intros [nm r sz d|nm r kids]; [apply HF|].
  apply HD. revert kids. fix IHk 1. intros [|k kids].
  - apply List.Forall_nil.
  - apply List.Forall_cons; [apply IH | apply IHk].
Qed.

(** Below an absolute root that is excluded, every path is excluded. *)
Lemma excluded_root_excludes_tree (excl : list string) (n : node) :
  forall root,
    startswith root "/" = true -> well_named n = true -> is_excluded excl root = true ->
    Forall (fun p => is_excluded excl p = true) (tree_paths root n).
Proof.
  induction n as [nm r sz d|nm r kids IH] using node_nested_ind;
    intros root Ha Hw Hx; [apply List.Forall_nil|].
  cbn [tree_paths well_named] in *.
  apply Forall_forall. intros p Hp. apply list_elem_of_In in Hp.
  apply in_flat_map in Hp as [k [Hk Hp]].
  rewrite forallb_forall in Hw. specialize (Hw k Hk).
  apply andb_true_iff in Hw as [Hn Hwk].
  rewrite Forall_forall in IH. specialize (IH k (proj2 (list_elem_of_In _ _) Hk)).
  destruct Hp as [<-|Hp].
  - by apply excluded_below.
  - specialize (IH (join root (node_name k)) (join_absolute _ _ Ha Hn) Hwk
                   (excluded_below excl _ _ Ha Hn Hx)).
    rewrite Forall_forall in IH. apply IH. by apply list_elem_of_In.
Qed.
(** ** Fully excluded trees *)

Lemma flat_map_all_nil {A B} (f : A -> list B) (l : list A) :
  (forall x, In x l -> f x = []) -> flat_map f l = [].
Proof.
  induction l as [|x l IH]; intros H; simpl; [reflexivity|].
  rewrite (H x) by (left; reflexivity). simpl. apply IH. intros y Hy. apply H. by right.
Qed.

Lemma child_path_in_tree (root nm : string) (r : bool) (kids : list node) (k : node) :
  In k kids -> In (join root (node_name k)) (tree_paths root (Dir nm r kids)).
Proof.
  intros H. simpl. apply in_flat_map. exists k. split; [exact H|]. left. reflexivity.
Qed.

Lemma build_walk_all_excluded (cwd source : string) (excluded : list string)
    (root : string) (n : node) :
  Forall (fun p => excluded_norm excluded (normpath p) = true) (tree_paths root n) ->
  build_walk cwd source excluded root n = [].
Proof.
  intros H. destruct n as [nm r sz data|nm r kids]; [reflexivity|].
  destruct r; [|reflexivity].
  assert (X : forall k, In k kids ->
                excluded_norm excluded (normpath (join root (node_name k))) = true).
  { intros k Hk. rewrite Forall_forall in H. apply H. apply list_elem_of_In.
    by eapply child_path_in_tree. }
  cbn [build_walk].
  rewrite !flat_map_all_nil; [reflexivity| | |].
  - intros k Hk. by rewrite (X k Hk), andb_false_r.
  - intros k Hk. apply filter_In in Hk as [Hk _]. unfold add_file. by rewrite (X k Hk).
  - intros k Hk. apply filter_In in Hk as [Hk _]. unfold add_directory. by rewrite (X k Hk).
Qed.

(** C8: when every path below the root is matched by the exclusion test, or
    the root is an absolute path that is itself excluded, the walk adds
    nothing, and the build, if the environment raises no fault, publishes a
    closed archive with no entries under [dest], leaves no temporary file and
    returns success. *)
Theorem fully_excluded_tree_gives_empty_archive
    (home : string) (w : world) (source dest : string) (excl : list string) :
  (forall n, resolve w source = Some n ->
             Forall (fun p => is_excluded excl p = true) (tree_paths source n)
             \/ (startswith source "/" = true /\ well_named n = true
                 /\ is_excluded excl source = true)) ->
  let r := create_tarball_with_progress home w no_faults source dest excl in
  archive_entries w source excl = []
  /\ fst r = (true, "Tarball created at " +:+ dest)
  /\ apply_events (store w) (snd r) !! dest = Some (Archive [])
  /\ apply_events (store w) (snd r) !! (dest +:+ ".tmp") = None.
Proof.
  intros H r. subst r.
  assert (E : archive_calls w source excl = []).
  { unfold archive_calls. destruct (resolve w source) as [n|] eqn:R; [|reflexivity].
    apply build_walk_all_excluded.
    destruct (H n eq_refl) as [A|(Ha & Hw & Hx)]; [exact A|].
    by apply excluded_root_excludes_tree. }
  unfold archive_entries, create_tarball_with_progress. rewrite E.
  destruct (scan_directory home w source) as [[td tf] ts].
  cbn [no_faults open_fault close_fault rename_fault fst snd flat_map].
  split; [reflexivity|]. split; [reflexivity|].
  destruct (successful_run (dest +:+ ".tmp") dest (temp_differs dest) (store w)
              source td tf []) as (C & _ & P & N & _).
  cbn [walk_events flat_map app] in C, P, N |- *.
  rewrite C, ?app_nil_r. split; [exact P | exact N].
Qed.

Lemma fully_excluded_tree_witness :
  is_excluded (EXCLUDE_DIRS sample_home) "/tmp" = true
  /\ resolve sample_world "/tmp" = Some sample_tmp
  /\ fst (create_tarball_with_progress sample_home sample_world no_faults "/tmp"
            "/home/user/BackupSystemBackups/t.tar.gz" (EXCLUDE_DIRS sample_home))
     = (true, "Tarball created at /home/user/BackupSystemBackups/t.tar.gz")
  /\ apply_events (store sample_world)
       (snd (create_tarball_with_progress sample_home sample_world no_faults "/tmp"
               "/home/user/BackupSystemBackups/t.tar.gz" (EXCLUDE_DIRS sample_home)))
     !! "/home/user/BackupSystemBackups/t.tar.gz" = Some (Archive []).
Proof.
  split; [reflexivity|]. split; [reflexivity|].
  assert (H : forall n, resolve sample_world "/tmp" = Some n ->
                Forall (fun p => is_excluded (EXCLUDE_DIRS sample_home) p = true)
                       (tree_paths "/tmp" n)
                \/ (startswith "/tmp" "/" = true /\ well_named n = true
                    /\ is_excluded (EXCLUDE_DIRS sample_home) "/tmp" = true)).
  { intros n E. injection E as <-. right. repeat split; reflexivity. }
  destruct (fully_excluded_tree_gives_empty_archive sample_home sample_world "/tmp"
              "/home/user/BackupSystemBackups/t.tar.gz" (EXCLUDE_DIRS sample_home) H)
    as (_ & R & D & _).
  split; [exact R | exact D].
Defined.

(** * Further properties *)

(** ** Saving and loading the configuration *)



(** X2: [load_config] is idempotent: loading again returns the same record
    and leaves the file as the first load left it; the first load of an
    absent file, when it can be written, creates it with the defaults. *)
Theorem load_config_idempotent
    (home : string) (ff : file_faults) (file : option file_text) :
  let r := load_config home ff file in
  load_config home ff (snd r) = r
  /\ (file = None -> write_fault ff = None ->
      r = (DEFAULT_CONFIG home, Some (Document (DEFAULT_CONFIG home)))).
Proof.
  unfold load_config, open_and_load, save_config.
  destruct file as [[raw|j]|]; cbn beta iota zeta.
  - destruct (read_fault ff); simpl; split; try reflexivity; discriminate.
  - destruct (read_fault ff) eqn:R; simpl; rewrite ?R; split; try reflexivity; discriminate.
  - destruct (write_fault ff) eqn:W; simpl.
    + split; [reflexivity | discriminate].
    + destruct (read_fault ff) eqn:R; simpl; rewrite ?R; split; reflexivity.
Qed.

Lemma load_config_idempotent_witness :
  load_config sample_home no_file_faults None
  = (DEFAULT_CONFIG sample_home, Some (Document (DEFAULT_CONFIG sample_home))).
Proof.
  apply (load_config_idempotent sample_home no_file_faults None); reflexivity.
Defined.

(** ** Configurations the scheduler does not refuse *)

Lemma last_of_app {A} (l l' : list A) (d : A) :
  l' <> [] -> List.last (l ++ l') d = List.last l' d.
Proof.
  intros H. induction l as [|x l IH]; [reflexivity|].
  change ((x :: l) ++ l') with (x :: (l ++ l')).
  destruct (l ++ l') as [|y t] eqn:E.
  - destruct l; [simpl in E; congruence | discriminate].
  - rewrite <- IH. reflexivity.
Qed.

(** X3: when the record [load_config] returns has auto-backup switched off
    (as the defaults have, which it returns for an absent, unreadable or
    unparseable file), [auto_backup_scheduler] returns [False], leaves no job
    registered, not even the job of the configuration before, clears the
    stop signal and starts no thread. *)
Theorem disabled_config_leaves_scheduler_stopped
    (home : string) (env : environment) (tm : timing) (file : option file_text) (s : sched)
    (fields : list (string * json)) :
  fst (load_config home (config_faults env) file) = JObj fields ->
  truthy (match dict_get fields "auto_backup_enabled" with
          | Some v => v
          | None => JBool false
          end) = false ->
  let r := auto_backup_scheduler home env tm file s in
  let s' := final_sched s r in
  fst (fst r) = Returned false
  /\ jobs s' = [] /\ stop_event s' = false
  /\ created s' = created s /\ scheduler_thread s' = scheduler_thread s
  /\ alive s' ⊆ alive s.
Proof.
  intros L D r s'. subst s' r.
  pose proof (stop_previous_last tm s) as (L1 & L2 & L3 & L4 & L5).
  unfold auto_backup_scheduler, final_sched.
  destruct (load_config home (config_faults env) file) as [config file'].
  simpl in L. subst config.
  unfold check_config. rewrite D. cbn [negb fst snd].
  rewrite last_of_two. simpl. repeat split; auto.
Qed.

Lemma disabled_config_witness :
  fst (fst (auto_backup_scheduler sample_home sample_env busy_runner None running_sched))
  = Returned false
  /\ jobs (final_sched running_sched
             (auto_backup_scheduler sample_home sample_env busy_runner None running_sched)) = [].
Proof.
  destruct (disabled_config_leaves_scheduler_stopped sample_home sample_env busy_runner None
              running_sched
              [("auto_backup_enabled", JBool false); ("backup_type", JStr "specific");
               ("specific_dir", JStr sample_home); ("frequency", JStr "daily");
               ("time", JStr "00:00")] eq_refl eq_refl) as (R & J & _).
  split; [exact R | exact J].
Defined.

Lemma check_valid_accepted (env : environment) (c : BackupConfig) :
  valid_config env c -> check_config env (config_json c) = CValid (expected_job c).
Proof.
  unfold valid_config, check_config, config_json, expected_job.
  cbn [dict_get String.eqb Ascii.eqb Bool.eqb truthy].
  intros (E & K & F & T & A). rewrite E, T, A. cbn [negb].
  destruct (String.eqb_spec (cfg_backup_type c) "full") as [Ef|Nf];
  destruct (String.eqb_spec (cfg_backup_type c) "specific") as [Es|Ns];
  destruct (String.eqb_spec (cfg_specific_dir c) "") as [Ed|Nd];
  destruct (String.eqb_spec (cfg_frequency c) "daily") as [Fd|Fd];
  destruct (String.eqb_spec (cfg_frequency c) "weekly") as [Fw|Fw];
  destruct (String.eqb_spec (cfg_frequency c) "monthly") as [Fm|Fm];
  destruct (isdir env (cfg_specific_dir c)) eqn:Ei;
  cbn [negb orb andb]; try reflexivity; exfalso; intuition congruence.
Qed.

Lemma start_thread_alive (s : sched) : thread_is_alive (start_thread s) = true.
Proof.
  unfold thread_is_alive, start_thread. simpl. apply bool_decide_eq_true_2.
  apply elem_of_union. right. by apply elem_of_singleton.
Qed.

Lemma alive_runner_is_only_one (s : sched) :
  sched_ok s -> thread_is_alive s = true -> size (alive s) = 1.
Proof.
  intros Ok A. pose proof (sched_ok_bounds s Ok) as [B _].
  unfold thread_is_alive in A. destruct (scheduler_thread s) as [t|]; [|discriminate].
  apply bool_decide_eq_true_1 in A.
  assert (size (alive s) <> 0); [|lia].
  intros Z. apply size_empty_inv in Z. apply leibniz_equiv in Z.
  rewrite Z in A. by apply not_elem_of_empty in A.
Qed.

(** X4: for every valid configuration held by the file,
    [auto_backup_scheduler] returns [True]; afterwards the job table holds
    exactly the one job of the configuration (daily, weekly on Sunday, or for
    monthly daily with the test for day 1), whatever it held before, and
    exactly one runner thread is alive, the one [_scheduler_thread] names. *)
Theorem valid_config_runs_one_job_on_one_runner
    (home : string) (env : environment) (tm : timing) (c : BackupConfig) (s : sched) :
  sched_ok s -> valid_config env c -> read_fault (config_faults env) = None ->
  let r := auto_backup_scheduler home env tm (Some (Document (config_json c))) s in
  let s' := final_sched s r in
  fst (fst r) = Returned true
  /\ jobs s' = [expected_job c]
  /\ thread_is_alive s' = true
  /\ size (alive s') = 1.
Proof.
  intros Ok V R r s'.
  assert (Ok' : sched_ok s') by (apply scheduler_trace_ok; exact Ok).
  assert (G : fst (fst r) = Returned true /\ jobs s' = [expected_job c]
              /\ thread_is_alive s' = true).
  { subst s' r. unfold auto_backup_scheduler, final_sched, load_config, open_and_load.
    rewrite R. cbn beta iota zeta. rewrite (check_valid_accepted env c V).
    match goal with
    | |- context [thread_is_alive ?x] => destruct (thread_is_alive x) eqn:A
    end; cbn [fst snd].
    - rewrite last_of_app by discriminate. cbn [List.last].
      split; [reflexivity|]. split; [|exact A].
      destruct (exits_later tm); [|reflexivity].
      unfold exit_current. simpl. destruct (scheduler_thread _); reflexivity.
    - rewrite last_of_app by discriminate. cbn [List.last].
      split; [reflexivity|]. split; [|apply start_thread_alive].
      destruct (exits_later tm); [|reflexivity].
      unfold exit_current. simpl. destruct (scheduler_thread _); reflexivity. }
  destruct G as (G1 & G2 & G3). repeat split; try assumption.
  by apply alive_runner_is_only_one.
Qed.

Lemma valid_config_witness :
  sched_ok running_sched /\ valid_config sample_env weekly_specific
  /\ jobs (final_sched running_sched
             (auto_backup_scheduler sample_home sample_env prompt_runner
                (Some (Document (config_json weekly_specific))) running_sched))
     = [{| job_trigger := EverySunday; job_at := "23:59";
           job_first_of_month_only := false;
           job_task := TaskSpecific (JStr "/home/user/docs") |}].
Proof.
  assert (V : valid_config sample_env weekly_specific).
  { unfold valid_config. simpl. split; [reflexivity|]. split.
    - right. repeat split. discriminate.
    - split; [right; left; reflexivity|]. split; reflexivity. }
  split; [exact sched_ok_running|]. split; [exact V|].
  apply (valid_config_runs_one_job_on_one_runner sample_home sample_env prompt_runner
           weekly_specific running_sched sched_ok_running V eq_refl).
Defined.

(** ** Times of day *)

Lemma nat_of_digit (x : Z) : nat_of_ascii (digit x) = (48 + Z.to_nat (x mod 10))%nat.
Proof.
  unfold digit. pose proof (Z.mod_pos_bound x 10 eq_refl).
  apply nat_ascii_embedding. lia.
Qed.

Lemma is_digit_digit (x : Z) : is_digit (digit x) = true.
Proof.
  unfold is_digit. rewrite nat_of_digit. pose proof (Z.mod_pos_bound x 10 eq_refl).
  apply andb_true_iff. split; apply Nat.leb_le; lia.
Qed.

Lemma digit_upto_digit (hi : nat) (x : Z) :
  digit_upto hi (digit x) = (x mod 10 <=? Z.of_nat hi)%Z.
Proof.
  unfold digit_upto. rewrite nat_of_digit. pose proof (Z.mod_pos_bound x 10 eq_refl).
  destruct (Z.leb_spec (x mod 10) (Z.of_nat hi)).
  - apply andb_true_iff. split; apply Nat.leb_le; lia.
  - apply andb_false_iff. right. apply Nat.leb_gt. lia.
Qed.

Lemma digit_is_two (x : Z) : Ascii.eqb (digit x) "2" = (x mod 10 =? 2)%Z.
Proof.
  pose proof (Z.mod_pos_bound x 10 eq_refl).
  destruct (Z.eqb_spec (x mod 10) 2) as [E|N].
  - apply Ascii.eqb_eq. unfold digit. rewrite E. reflexivity.
  - apply Ascii.eqb_neq. intros E. apply (f_equal nat_of_ascii) in E.
    rewrite nat_of_digit in E. change (nat_of_ascii "2") with 50%nat in E. lia.
Qed.

(** X5: a time written with two digits for the hour and two for the minute
    passes the validation of the scheduler exactly when the hour is at most
    23 and the minute at most 59. *)
Theorem padded_time_accepted_iff_in_range (h m : Z) :
  (0 <= h < 100)%Z -> (0 <= m < 100)%Z ->
  (strptime_HM (pad2 h +:+ ":" +:+ pad2 m) = true <-> (h <= 23 /\ m <= 59)%Z).
Proof.
  intros Hh Hm. unfold strptime_HM, pad2. cbn [String.append list_ascii_of_string].
  cbn [Ascii.eqb Bool.eqb andb hour_digits minute_digits].
  rewrite !is_digit_digit, !digit_upto_digit, digit_is_two, !andb_true_r.
  rewrite andb_true_iff, orb_true_iff, !andb_true_iff.
  rewrite !Z.leb_le, Z.eqb_eq.
  change (Z.of_nat 3) with 3%Z. change (Z.of_nat 1) with 1%Z. change (Z.of_nat 5) with 5%Z.
  Z.div_mod_to_equations. lia.
Qed.

Lemma padded_time_witness :
  strptime_HM (pad2 7 +:+ ":" +:+ pad2 5) = true <-> (7 <= 23 /\ 5 <= 59)%Z.
Proof. apply (padded_time_accepted_iff_in_range 7 5); lia. Defined.

(** ** Restoring *)












(** X8: [restore_backup] succeeds exactly when the backup file is a closed
    archive and the restore directory exists or can be created; a member
    that cannot be extracted never makes it fail.  When it fails, what the
    restore directory held is untouched. *)
Theorem restore_succeeds_iff
    (w : world) (makedirs_fault : option string) (backup_file : string)
    (dest : option (gmap string fobj)) :
  let r := restore_backup w makedirs_fault backup_file dest in
  (fst (fst r) = true <->
   (exists es, store w !! backup_file = Some (Archive es))
   /\ (dest = None -> makedirs_fault = None))
  /\ (fst (fst r) = false -> forall d, dest = Some d -> snd r = Some d).
Proof.
  unfold restore_backup.
  destruct (store w !! backup_file) as [[es|es]|] eqn:S; cbn beta iota zeta.
  - destruct dest as [d|]; [|destruct makedirs_fault]; simpl;
      (split; [split; [discriminate|]|]);
      try (intros [[es' [=]] _]); try (intros _ d' [= <-]; reflexivity);
      try (intros _ d' [=]).
  - destruct dest as [d|]; [|destruct makedirs_fault]; simpl.
    + split; [split; [intros _; split; [eauto | discriminate] | reflexivity]|discriminate].
    + split; [split; [discriminate | intros [_ H]; discriminate (H eq_refl)]|].
      intros _ d' [=].
    + split; [split; [intros _; split; [eauto | reflexivity] | reflexivity]|discriminate].
  - simpl. split; [split; [discriminate | intros [[es [=]] _]]|].
    intros _ d E. exact E.
Qed.

Lemma restore_succeeds_witness :
  fst (fst (restore_backup sample_store_world (Some "Permission denied")
              "/home/user/BackupSystemBackups/missing.tar.gz" (Some ∅))) = false
  /\ snd (restore_backup sample_store_world (Some "Permission denied")
            "/home/user/BackupSystemBackups/missing.tar.gz" (Some ∅)) = Some ∅.
Proof.
  split; [reflexivity|].
  apply (restore_succeeds_iff sample_store_world (Some "Permission denied")
           "/home/user/BackupSystemBackups/missing.tar.gz" (Some ∅)); reflexivity.
Defined.



(** ** Builds and the operations around them *)

Lemma build_outcome
    (home : string) (w : world) (f : faults) (source dest : string) (excl : list string) :
  let r := create_tarball_with_progress home w f source dest excl in
  Forall (targets (dest +:+ ".tmp") dest) (snd r)
  /\ apply_events (store w) (snd r) !! (dest +:+ ".tmp") = None
  /\ match first_fault f with
     | None =>
         fst r = (true, "Tarball created at " +:+ dest)
         /\ apply_events (store w) (snd r) !! dest
            = Some (Archive (archive_entries w source excl))
     | Some e =>
         fst r = build_failure e
         /\ apply_events (store w) (snd r) !! dest = store w !! dest
     end.
Proof.
  intros r. subst r.
  set (temp := dest +:+ ".tmp"). set (st := store w).
  assert (D : temp <> dest) by apply temp_differs.
  unfold create_tarball_with_progress, first_fault, archive_entries.
  destruct (scan_directory home w source) as [[td tf] ts].
  fold temp. fold st.
  set (calls := archive_calls w source excl).
  assert (HW : Forall (fun e => targets temp dest e /\ harmless dest e)
                 ([EvWalk source] ++ [EvOpen temp; EvWalk source]
                  ++ walk_events temp td tf 0 0 calls)).
  { apply Forall_app. split; [repeat constructor|].
    apply Forall_app. split; [|exact (walk_events_targets temp dest D td tf 0%Z 0%Z calls)].
    repeat (constructor; [simpl; solve [auto]|]). constructor. }
  assert (failing : forall body e,
            Forall (fun e => targets temp dest e /\ harmless dest e) body ->
            Forall (targets temp dest) (body ++ cleanup st temp body)
            /\ apply_events st (body ++ cleanup st temp body) !! temp = None
            /\ build_failure e = build_failure e
            /\ apply_events st (body ++ cleanup st temp body) !! dest = st !! dest).
  { intros body e HB.
    destruct (failing_run temp dest D st body HB) as (T & U & C).
    split; [exact T|]. split; [exact C|]. split; [reflexivity|].
    specialize (U (length (body ++ cleanup st temp body))).
    by rewrite take_ge in U. }
  destruct f as [[[e1 was_created]|] [e2|] [e3|]];
    cbn [open_fault close_fault rename_fault fst snd].
  1-4: apply failing; apply Forall_app; split;
       [repeat constructor | destruct was_created; repeat constructor; simpl; auto].
  1-2: apply failing; exact HW.
  - apply failing. apply Forall_app. split; [exact HW|]. repeat constructor; simpl; auto.
  - match goal with
    | |- Forall _ (?b ++ cleanup _ _ ?b) /\ _ =>
        change b with ((EvWalk source :: EvOpen temp :: EvWalk source
                        :: walk_events temp td tf 0 0 calls)
                       ++ [EvClose temp; EvRename temp dest])
    end.
    destruct (successful_run temp dest D st source td tf calls) as (C & T & P & N & A).
    rewrite C, app_nil_r. auto.
Qed.

Lemma targets_harmless_elsewhere (temp dest p : string) (e : event) :
  p <> dest -> p <> temp -> targets temp dest e -> harmless p e.
Proof.
  intros Nd Nt. destruct e; simpl; try tauto; try (intros ->; congruence).
  intros [-> ->]. split; congruence.
Qed.

(** X10: a build changes no path of the store other than its destination
    and the temporary file beside it, whether it succeeds or fails. *)
Theorem build_touches_only_dest_and_temp
    (home : string) (w : world) (f : faults) (source dest : string) (excl : list string)
    (p : string) :
  p <> dest -> p <> dest +:+ ".tmp" ->
  apply_events (store w) (snd (create_tarball_with_progress home w f source dest excl)) !! p
  = store w !! p.
Proof.
  intros Nd Nt.
  destruct (build_outcome home w f source dest excl) as (T & _).
  apply apply_events_harmless.
  eapply Forall_impl; [exact T|]. intros e. by apply targets_harmless_elsewhere.
Qed.

Lemma build_touches_only_witness :
  apply_events (store sample_store_world)
    (snd (create_tarball_with_progress sample_home sample_store_world sample_faults "/"
            "/home/user/BackupSystemBackups/new.tar.gz" []))
  !! "/home/user/BackupSystemBackups/docs_20240309-070500.tar.gz"
  = Some (Archive sample_archive).
Proof.
  rewrite (build_touches_only_dest_and_temp sample_home sample_store_world sample_faults "/"
             "/home/user/BackupSystemBackups/new.tar.gz" []
             "/home/user/BackupSystemBackups/docs_20240309-070500.tar.gz");
    [reflexivity | discriminate | discriminate].
Defined.





(** ** The exclusion test and the scanning pass *)

Lemma scan_file_prefix_half (exclude_dirs : list string) (p : string) :
  scan_file_excluded exclude_dirs p = is_excluded exclude_dirs p.
Proof.
  unfold is_excluded, excluded_norm, scan_file_excluded.
  destruct (existsb (String.eqb (normpath p)) (excluded_normalized_paths exclude_dirs)) eqn:E;
    [|reflexivity].
  cbn [orb]. apply existsb_exists in E as [x [I Q]]. apply String.eqb_eq in Q. subst x.
  apply existsb_exists. exists (normpath p). split; [exact I | apply startswith_refl].
Qed.

(** X13: with one exclusion list, the file test of the scanning pass, which
    has only the prefix half, decides as the test of the archiving pass. *)
Theorem scan_file_test_agrees (exclude_dirs : list string) (p : string) :
  scan_file_excluded exclude_dirs p = is_excluded exclude_dirs p.
Proof. apply scan_file_prefix_half. Qed.

(** X14: the exclusion test is inherited: below an absolute path that is
    excluded, every child is excluded, and so is every path of a tree rooted
    there; pruning an excluded directory skips nothing that the test would
    have let through. *)
Theorem exclusion_is_inherited (exclude_dirs : list string) (q : string) :
  startswith q "/" = true -> is_excluded exclude_dirs q = true ->
  (forall name, plain_name name = true -> is_excluded exclude_dirs (join q name) = true)
  /\ (forall n, well_named n = true ->
        Forall (fun p => is_excluded exclude_dirs p = true) (tree_paths q n)).
Proof.
  intros A X. split.
  - intros name P. by apply excluded_below.
  - intros n W. by apply excluded_root_excludes_tree.
Qed.

Lemma exclusion_is_inherited_witness :
  is_excluded (EXCLUDE_DIRS sample_home) (join "/var/log" "syslog") = true.
Proof.
  apply (exclusion_is_inherited (EXCLUDE_DIRS sample_home) "/var/log");
    reflexivity.
Defined.

Lemma add_zero_totals (l : list totals) (a : totals) :
  Forall (fun t => t = (0, 0, 0)%Z) l -> fold_left add_totals l a = a.
Proof.
  revert a. induction l as [|t l IH]; intros a H; [reflexivity|].
  inversion H; subst. simpl. rewrite IH by assumption.
  destruct a as [[d f] s]. unfold add_totals. f_equal; [f_equal|]; lia.
Qed.

Lemma scan_walk_all_excluded (exclude_dirs : list string) (root : string) (n : node) :
  Forall (fun p => is_excluded exclude_dirs p = true) (tree_paths root n) ->
  scan_walk exclude_dirs root n = (0, 0, 0)%Z.
Proof.
  intros H. destruct n as [nm r sz data|nm r kids]; [reflexivity|].
  destruct r; [|reflexivity].
  assert (X : forall k, In k kids ->
                is_excluded exclude_dirs (join root (node_name k)) = true).
  { intros k Hk. rewrite Forall_forall in H. apply H. apply list_elem_of_In.
    by eapply child_path_in_tree. }
  cbn [scan_walk].
  assert (F : List.filter
                (fun k => is_dir k && negb (is_excluded exclude_dirs (join root (node_name k))))
                kids = []).
  { clear H. induction kids as [|k kids IH]; [reflexivity|]. simpl.
    rewrite (X k) by (by left). rewrite andb_false_r. apply IH.
    intros k' Hk'. apply X. by right. }
  rewrite F. cbn [length Z.of_nat].
  rewrite add_zero_totals.
  - apply add_zero_totals. apply Forall_forall. intros t Ht.
    apply list_elem_of_In in Ht. apply in_map_iff in Ht as [k [<- Hk]].
    apply filter_In in Hk as [Hk _]. unfold scan_file.
    by rewrite scan_file_prefix_half, (X k Hk).
  - apply Forall_forall. intros t Ht.
    apply list_elem_of_In in Ht. apply in_map_iff in Ht as [k [<- Hk]].
    by rewrite (X k Hk), andb_false_r.
Qed.

(** X15: the scan of an absolute path that is itself excluded by the
    module's list, a directory below [/tmp] or [/mnt] for instance, reports
    no directory, no file and no byte, whatever the directory holds. *)
Theorem scan_of_excluded_root_is_zero
    (home : string) (w : world) (path : string) :
  startswith path "/" = true ->
  is_excluded (EXCLUDE_DIRS home) path = true ->
  (forall n, resolve w path = Some n -> well_named n = true) ->
  scan_directory home w path = (0, 0, 0)%Z.
Proof.
  intros A X W. unfold scan_directory.
  destruct (resolve w path) as [n|] eqn:R; [|reflexivity].
  apply scan_walk_all_excluded. apply excluded_root_excludes_tree; auto.
Qed.

Lemma scan_of_excluded_root_witness :
  scan_directory sample_home sample_world "/mnt/data" = (0, 0, 0)%Z.
Proof.
  apply (scan_of_excluded_root_is_zero sample_home sample_world "/mnt/data");
    [reflexivity | reflexivity |].
  intros n E. injection E as <-. reflexivity.
Defined.

(** ** What the archive of a flat directory holds *)

Lemma flat_map_ext_in {A B} (f g : A -> list B) (l : list A) :
  (forall x, In x l -> f x = g x) -> flat_map f l = flat_map g l.
Proof.
  induction l as [|x l IH]; intros H; simpl; [reflexivity|].
  rewrite (H x) by (by left). f_equal. apply IH. intros y Hy. apply H. by right.
Qed.

Lemma filter_all {A} (p : A -> bool) (l : list A) :
  forallb p l = true -> List.filter p l = l.
Proof.
  induction l as [|x l IH]; simpl; [reflexivity|].
  intros H. apply andb_true_iff in H as [Hx Hl]. rewrite Hx. f_equal. by apply IH.
Qed.

Lemma filter_none {A} (p : A -> bool) (l : list A) :
  (forall x, In x l -> p x = false) -> List.filter p l = [].
Proof.
  induction l as [|x l IH]; simpl; [reflexivity|].
  intros H. rewrite (H x) by (by left). apply IH. intros y Hy. apply H. by right.
Qed.

Lemma flat_map_flat_map {A B C} (f : A -> list B) (g : B -> list C) (l : list A) :
  flat_map g (flat_map f l) = flat_map (fun x => flat_map g (f x)) l.
Proof.
  induction l as [|x l IH]; simpl; [reflexivity|].
  rewrite flat_map_app. by rewrite IH.
Qed.

(** X16: for a readable directory that has no subdirectory, the archive
    holds exactly the files that are readable, not excluded, of known size
    and of at most 500 MiB (a file of exactly that size is kept), in the
    order of the listing, each under its path relative to the root, with its
    bytes. *)
Theorem flat_directory_archive
    (w : world) (source : string) (exclude_dirs : list string)
    (name : string) (kids : list node) :
  resolve w source = Some (Dir name true kids) ->
  forallb is_file kids = true ->
  archive_entries w source exclude_dirs
  = flat_map (flat_entry (cwd w) source exclude_dirs) kids.
Proof.
  intros R F. unfold archive_entries, archive_calls. rewrite R. cbn [build_walk].
  assert (D : forall k, In k kids -> is_dir k = false).
  { intros k Hk. rewrite forallb_forall in F. specialize (F k Hk).
    unfold is_file in F. by apply negb_true_iff in F. }
  rewrite (filter_all is_file kids F).
  rewrite filter_none by (intros k Hk; cbv beta; by rewrite (D k Hk)).
  cbn [flat_map app].
  match goal with
  | |- context [flat_map ?g kids] =>
      match g with
      | context [build_walk] =>
          rewrite (flat_map_all_nil g kids) by (intros k Hk; cbv beta; by rewrite (D k Hk))
      end
  end.
  rewrite app_nil_r, flat_map_flat_map.
  apply flat_map_ext_in. intros k Hk.
  destruct k as [nm r [sz|] data|nm r ks]; [| |discriminate (D _ Hk)].
  - unfold add_file, flat_entry, is_excluded. cbn [node_name node_readable].
    destruct (excluded_norm _ _); [by destruct r|].
    destruct r; [|reflexivity]. cbn [negb orb].
    destruct (FILE_SIZE_LIMIT <? sz)%Z; reflexivity.
  - unfold add_file, flat_entry. cbn [node_name node_readable].
    destruct (excluded_norm _ _); [by destruct r|]. by destruct r.
Qed.

Lemma flat_directory_archive_witness :
  archive_entries sample_flat_world "/srv/flat" []
  = [EFile "small" "0123456789"; EFile "limit" "..."].
Proof.
  rewrite (flat_directory_archive sample_flat_world "/srv/flat" [] "flat"
             [File "small" true (Some 10%Z) "0123456789";
              File "limit" true (Some (500 * 1024 * 1024)%Z) "...";
              File "large" true (Some (500 * 1024 * 1024 + 1)%Z) "..."]);
    reflexivity.
Defined.

(** ** Where the operations write *)










(** ** What one call of [tar.add] writes *)

Lemma add_in_turn_insert (x : string * (list entry * bool))
    (l : list (string * (list entry * bool))) :
  snd (add_in_turn (insert_sorted x l)) = snd (snd x) && snd (add_in_turn l)
  /\ (snd (snd x) = true -> snd (add_in_turn l) = true ->
      length (fst (add_in_turn (insert_sorted x l)))
      = (length (fst (snd x)) + length (fst (add_in_turn l)))%nat).
Proof.
  destruct x as [nx [ex okx]]. cbn [fst snd].
  induction l as [|[ny [ey oky]] t [IH1 IH2]].
  - cbn [insert_sorted add_in_turn]. destruct okx; cbn [fst snd]; split; try reflexivity;
      try discriminate. intros _ _. by rewrite length_app.
  - cbn [insert_sorted fst].
    destruct (String.leb nx ny).
    + cbn [add_in_turn]. destruct okx; [|split; [reflexivity|discriminate]].
      destruct oky.
      * destruct (add_in_turn t) as [es ok]. cbn [fst snd]. split; [reflexivity|].
        intros _ _. by rewrite !length_app.
      * cbn [fst snd]. split; [reflexivity|discriminate].
    + cbn [add_in_turn]. destruct oky.
      * destruct (add_in_turn (insert_sorted (nx, (ex, okx)) t)) as [es1 ok1].
        destruct (add_in_turn t) as [es2 ok2]. cbn [fst snd] in *.
        split; [exact IH1|]. intros Hx H2. rewrite !length_app, IH2 by assumption. lia.
      * cbn [fst snd]. split; [by rewrite andb_false_r|discriminate].
Qed.

Lemma add_in_turn_sorted (l : list (string * (list entry * bool))) :
  snd (add_in_turn (sort_by_name l)) = forallb (fun x => snd (snd x)) l
  /\ (forallb (fun x => snd (snd x)) l = true ->
      length (fst (add_in_turn (sort_by_name l)))
      = list_sum (List.map (fun x => length (fst (snd x))) l)).
Proof.
  induction l as [|x l [IH1 IH2]]; [split; reflexivity|].
  cbn [sort_by_name fold_right forallb List.map list_sum].
  fold (sort_by_name l).
  destruct (add_in_turn_insert x (sort_by_name l)) as [H1 H2].
  split; [by rewrite H1, IH1|].
  intros H. apply andb_true_iff in H as [Hx Hl].
  rewrite H2; [by rewrite IH2|exact Hx|by rewrite IH1].
Qed.

(** X18: one call of [tar.add] returns exactly when every node of the tree
    it is given is readable, and then it writes one entry for each node of
    the tree: the call is recursive, whatever the walk around it excludes. *)
Theorem tar_add_writes_whole_readable_tree (n : node) (name arcname : string) :
  snd (tar_add name arcname n) = all_readable n
  /\ (all_readable n = true ->
      length (fst (tar_add name arcname n)) = tree_size n).
Proof.
  revert name arcname.
  induction n as [nm r sz d|nm r kids IH] using node_nested_ind; intros name arcname.
  - cbn [tar_add all_readable tree_size]. destruct r; split; try reflexivity; discriminate.
  - cbn [tar_add all_readable tree_size].
    destruct r; [|split; [reflexivity|discriminate]].
    set (subs := List.map (fun k => (node_name k,
                   tar_add (join name (node_name k)) (join arcname (node_name k)) k)) kids).
    destruct (add_in_turn_sorted subs) as [H1 H2].
    assert (A : forallb (fun x => snd (snd x)) subs = forallb all_readable kids).
    { subst subs. clear H1 H2. induction kids as [|k kids IHk]; [reflexivity|].
      apply List.Forall_cons_iff in IH as [Hk Hks].
      cbn [List.map forallb snd]. rewrite (proj1 (Hk _ _)). f_equal. by apply IHk. }
    destruct (add_in_turn (sort_by_name subs)) as [es ok]. cbn [fst snd andb length] in *.
    split; [by rewrite H1|].
    intros R. rewrite H2 by (by rewrite A). f_equal.
    subst subs. clear H1 H2 A. induction kids as [|k kids IHk]; [reflexivity|].
    apply List.Forall_cons_iff in IH as [Hk Hks].
    cbn [forallb] in R. apply andb_true_iff in R as [Rk Rks].
    cbn [List.map fst snd]. unfold list_sum in *. cbn [fold_right]. rewrite (proj2 (Hk _ _) Rk). f_equal. by apply IHk.
Qed.

Lemma tar_add_writes_whole_readable_tree_witness :
  length (fst (tar_add "/srv/flat" "." sample_flat)) = 4%nat.
Proof.
  apply (proj2 (tar_add_writes_whole_readable_tree sample_flat "/srv/flat" ".")).
  reflexivity.
Defined.

(** ** A build followed by a restore *)


